(** * Frame graph store, path resolver and transform composer of WrenchPanel.tsx

    A shallow embedding of the three callbacks of [src/WrenchPanel.tsx] that
    carry the panel's algorithmic content:

    - [updateTFTree]      (lines 184-218): upsert of streamed transforms,
    - [findTransformPath] (lines 221-258): breadth-first path search,
    - [computeTransform]  (lines 261-346): composition along a path,

    and of two of their users: [availableFrames] (lines 147-165), the list
    offered by the frame selector, and [updateSensorPosition] (lines
    454-470), which places the sensor group with the resolved transform.

    Modelling choices.

    - JavaScript numbers are binary64 floats ([PrimFloat.float]).
    - The [Map<string, TFTreeNode>] keeps insertion order and [Map.forEach]
      visits the entries in that order, which decides the order of the search
      queue; the tree is therefore an association list whose [map_set]
      replaces in place or appends.  Lists built by [map_set] from the empty
      list have no duplicate key ([run_updates_NoDup]).
    - The [Set<string>] of visited frames is only added to and queried, so it
      is a [gset string].
    - The [while] loop of the search is a fixpoint on fuel; [bfs_fuel] is
      enough for every map ([findTransformPath_fuel_enough]), so
      [findTransformPath] is a total function.
    - [THREE.Matrix4] belongs to an external library: [computeTransform] is
      parametrised by its operations ([Matrix4Ops]). *)

From Stdlib Require Import PrimFloat.
From stdpp Require Import gmap strings list sorting.

Open Scope string_scope.
Open Scope list_scope.
Open Scope nat_scope.

Set Warnings "-clear-no-such-hyp".

(** ** Message and tree types (lines 11-64) *)

Record Stamp := { sec : float; nsec : float }.

Record Header := { frame_id : string; stamp : Stamp }.

Record Vector3 := { vx : float; vy : float; vz : float }.

Record Quaternion := { qx : float; qy : float; qz : float; qw : float }.

Record Transform := { translation : Vector3; rotation : Quaternion }.

Record TransformStamped := {
  header : Header;
  child_frame_id : string;
  transform : Transform
}.

Record TFMessage := { transforms : list TransformStamped }.

(** Of a [MessageEvent<TFMessage>] the panel only reads [message]. *)
Record TFMessageEvent := { message : TFMessage }.

(** [TFTreeNode]; its fields [frame_id] and [transform] are [node_frame_id]
    and [node_transform] here, the plain names being those of [Header] and
    [TransformStamped]. *)
Record TFTreeNode := {
  node_frame_id : string;
  parent_frame_id : option string;
  node_transform : Transform;
  timestamp : float
}.

(** ** The insertion-ordered [Map<string, TFTreeNode>] *)

Abbreviation TFTree := (list (string * TFTreeNode)).

Fixpoint map_get (m : TFTree) (k : string) : option TFTreeNode :=
  match m with
  | [] => None
  | (k', v) :: rest => if decide (k' = k) then Some v else map_get rest k
  end.

Definition map_has (m : TFTree) (k : string) : bool :=
  match map_get m k with Some _ => true | None => false end.

(** [Map.prototype.set]: an existing key keeps its position, a new key goes
    to the end. *)
Fixpoint map_set (m : TFTree) (k : string) (v : TFTreeNode) : TFTree :=
  match m with
  | [] => [(k, v)]
  | (k', v') :: rest =>
      if decide (k' = k) then (k, v) :: rest else (k', v') :: map_set rest k v
  end.

Definition map_keys (m : TFTree) : list string := m.*1.

(** ** updateTFTree (lines 184-218) *)

Definition identity_transform : Transform :=
  {| translation := {| vx := 0; vy := 0; vz := 0 |};
     rotation := {| qx := 0; qy := 0; qz := 0; qw := 1 |} |}.

(** Line 192: [stamp.sec * 1e9 + stamp.nsec]. *)
Definition stamp_ns (h : Header) : float :=
  (sec (stamp h) * 1e9 + nsec (stamp h))%float.

(** The body of the inner [forEach] (lines 190-212). *)
Definition apply_transform (newTree : TFTree) (t : TransformStamped) : TFTree :=
  let parentFrame := frame_id (header t) in
  let childFrame := child_frame_id t in
  let timestamp := stamp_ns (header t) in
  let newTree :=
    map_set newTree childFrame
      {| node_frame_id := childFrame;
         parent_frame_id := Some parentFrame;
         node_transform := transform t;
         timestamp := timestamp |} in
  if map_has newTree parentFrame then newTree
  else
    map_set newTree parentFrame
      {| node_frame_id := parentFrame;
         parent_frame_id := None;
         node_transform := identity_transform;
         timestamp := timestamp |}.

(** The state updater passed to [setTfTree]: a copy of the previous map run
    through both nested [forEach] loops. *)
Definition updateTFTree (prevTree : TFTree) (newTfMessages : list TFMessageEvent)
  : TFTree :=
  foldl (fun newTree tfMsg => foldl apply_transform newTree (transforms (message tfMsg)))
        prevTree newTfMessages.

(** The two nodes an update entry can write. *)
Definition child_node (t : TransformStamped) : TFTreeNode :=
  {| node_frame_id := child_frame_id t;
     parent_frame_id := Some (frame_id (header t));
     node_transform := transform t;
     timestamp := stamp_ns (header t) |}.

Definition placeholder_node (t : TransformStamped) : TFTreeNode :=
  {| node_frame_id := frame_id (header t);
     parent_frame_id := None;
     node_transform := identity_transform;
     timestamp := stamp_ns (header t) |}.

(** The nested loops visit the entries of all messages in input order. *)
Definition batch_entries (msgs : list TFMessageEvent) : list TransformStamped :=
  msgs ≫= (λ tfMsg, transforms (message tfMsg)).

(** A session: the batches handed to [updateTFTree] one after the other,
    starting from the [new Map()] of line 91. *)
Definition run_updates (batches : list (list TFMessageEvent)) : TFTree :=
  foldl updateTFTree [] batches.

Definition session_entries (batches : list (list TFMessageEvent))
  : list TransformStamped :=
  batches ≫= batch_entries.

(** ** findTransformPath (lines 221-258) *)

(** A queue element [{ frame, path }]. *)
Abbreviation QueueItem := (string * list string)%type.

(** The callback of [tfTree.forEach] (lines 244-254) at one entry: the two
    [if]s, in order, each pushing at most one element.  [visited] is not
    changed while the loop over the map runs. *)
Definition visit_entry (visited : gset string) (frame : string) (path : list string)
    (entry : string * TFTreeNode) : list QueueItem :=
  let '(nodeFrameId, node) := entry in
  (if bool_decide (parent_frame_id node = Some frame ∧ nodeFrameId ∉ visited)
   then [(nodeFrameId, path ++ [nodeFrameId])] else [])
  ++
  (if bool_decide (Some nodeFrameId = parent_frame_id node
                   ∧ node_frame_id node = frame ∧ nodeFrameId ∉ visited)
   then [(nodeFrameId, path ++ [nodeFrameId])] else []).

Definition push_neighbours (tree : TFTree) (visited : gset string)
    (frame : string) (path : list string) : list QueueItem :=
  tree ≫= visit_entry visited frame path.

(** The [while (queue.length > 0)] loop; one unit of fuel per evaluation of
    the loop condition, [None] when the fuel runs out. *)
Fixpoint bfs_loop (fuel : nat) (tree : TFTree) (targetFrame : string)
    (visited : gset string) (queue : list QueueItem) : option (list string) :=
  match fuel with
  | O => None
  | S fuel =>
      match queue with
      | [] => Some []
      | (frame, path) :: queue =>
          if decide (frame = targetFrame) then Some path
          else if decide (frame ∈ visited) then
            bfs_loop fuel tree targetFrame visited queue
          else
            let visited := {[frame]} ∪ visited in
            bfs_loop fuel tree targetFrame visited
                     (queue ++ push_neighbours tree visited frame path)
      end
  end.

Definition findTransformPath_fuel (fuel : nat) (tree : TFTree)
    (sourceFrame targetFrame : string) : option (list string) :=
  if decide (sourceFrame = targetFrame) then Some [sourceFrame]
  else bfs_loop fuel tree targetFrame ∅ [(sourceFrame, [sourceFrame])].

(** Fuel that always suffices for a map of [n] entries (see
    [bfs_loop_fuel_enough]). *)
Definition bfs_fuel (tree : TFTree) : nat :=
  let n := length tree in 2 + (2 * n + 1) * (n + 1).

Definition findTransformPath (tree : TFTree) (sourceFrame targetFrame : string)
  : list string :=
  default [] (findTransformPath_fuel (bfs_fuel tree) tree sourceFrame targetFrame).

(** The frames the loop adds to [visited], in order: the same control flow
    as [bfs_loop], recording each expansion. *)
Fixpoint bfs_expanded (fuel : nat) (tree : TFTree) (targetFrame : string)
    (visited : gset string) (queue : list QueueItem) : list string :=
  match fuel with
  | O => []
  | S fuel =>
      match queue with
      | [] => []
      | (frame, path) :: queue =>
          if decide (frame = targetFrame) then []
          else if decide (frame ∈ visited) then
            bfs_expanded fuel tree targetFrame visited queue
          else
            let visited := {[frame]} ∪ visited in
            frame :: bfs_expanded fuel tree targetFrame visited
                       (queue ++ push_neighbours tree visited frame path)
      end
  end.

(** ** computeTransform (lines 261-346) *)

(** The operations of [THREE.Matrix4] that [computeTransform] calls.  three.js
    is an external dependency of the panel, so the composer is stated over any
    implementation of them; [m4_compose] is [compose(position, quaternion,
    scale)] and [m4_decompose] returns [(position, quaternion, scale)]. *)
Record Matrix4Ops := {
  Matrix4 : Type;
  m4_identity : Matrix4;
  m4_compose : Vector3 → Quaternion → Vector3 → Matrix4;
  m4_invert : Matrix4 → Matrix4;
  m4_multiply : Matrix4 → Matrix4 → Matrix4;
  m4_decompose : Matrix4 → Vector3 * Quaternion * Vector3
}.

(** Lines 285-300: the transform of the edge between two neighbouring frames
    of the path and whether it has to be inverted. *)
Definition edge_transform (tree : TFTree) (fromFrame toFrame : string)
  : option (Transform * bool) :=
  let inverse_lookup :=
    match map_get tree fromFrame with
    | Some fromNode =>
        if decide (parent_frame_id fromNode = Some toFrame)
        then Some (node_transform fromNode, true) else None
    | None => None
    end in
  match map_get tree toFrame with
  | Some toNode =>
      if decide (parent_frame_id toNode = Some fromFrame)
      then Some (node_transform toNode, false) else inverse_lookup
  | None => inverse_lookup
  end.

Section composer.
Variable ops : Matrix4Ops.

(** Lines 306-329: the matrix of one edge. *)
Definition edge_matrix (t : Transform) (inverse : bool) : Matrix4 ops :=
  let mat :=
    m4_compose ops (translation t) (rotation t) {| vx := 1; vy := 1; vz := 1 |} in
  if inverse then m4_invert ops mat else mat.

(** The [for] loop of lines 280-333 over the pairs [path[i], path[i+1]];
    [None] is the early [return null] of line 303. *)
Fixpoint walk_path (tree : TFTree) (resultTransform : Matrix4 ops)
    (path : list string) : option (Matrix4 ops) :=
  match path with
  | fromFrame :: (toFrame :: _) as rest =>
      match edge_transform tree fromFrame toFrame with
      | None => None
      | Some (t, inverse) =>
          walk_path tree (m4_multiply ops resultTransform (edge_matrix t inverse)) rest
      end
  | _ => Some resultTransform
  end.

(** Lines 335-345: the translation and rotation read back from [decompose]. *)
Definition decomposed (resultTransform : Matrix4 ops) : Transform :=
  let '(position, quaternion, _) := m4_decompose ops resultTransform in
  {| translation := {| vx := vx position; vy := vy position; vz := vz position |};
     rotation := {| qx := qx quaternion; qy := qy quaternion;
                    qz := qz quaternion; qw := qw quaternion |} |}.

Definition computeTransform (tree : TFTree) (sourceFrame targetFrame : string)
  : option Transform :=
  if decide (sourceFrame = targetFrame) then Some identity_transform
  else
    let path := findTransformPath tree sourceFrame targetFrame in
    if decide (length path < 2) then None
    else
      match walk_path tree (m4_identity ops) path with
      | None => None
      | Some resultTransform => Some (decomposed resultTransform)
      end.

End composer.

(** ** A binary64 instance of the matrix operations

    The arithmetic of three.js's [Matrix4] ([identity], [compose],
    [multiplyMatrices], [invert], [determinant], [decompose]) and of
    [Quaternion.setFromRotationMatrix], over the column-major [elements]
    array [te[0..15]].  The library is not part of the repository; this
    instance serves to run [computeTransform] on concrete inputs, and every
    general statement below is proved for an arbitrary [Matrix4Ops]. *)
Module Three.
Local Open Scope float_scope.

Record Mat4 := {
  te0 : float; te1 : float; te2 : float; te3 : float;
  te4 : float; te5 : float; te6 : float; te7 : float;
  te8 : float; te9 : float; te10 : float; te11 : float;
  te12 : float; te13 : float; te14 : float; te15 : float
}.

Definition identity : Mat4 :=
  {| te0 := 1; te1 := 0; te2 := 0; te3 := 0;
     te4 := 0; te5 := 1; te6 := 0; te7 := 0;
     te8 := 0; te9 := 0; te10 := 1; te11 := 0;
     te12 := 0; te13 := 0; te14 := 0; te15 := 1 |}.

Definition zero : Mat4 :=
  {| te0 := 0; te1 := 0; te2 := 0; te3 := 0;
     te4 := 0; te5 := 0; te6 := 0; te7 := 0;
     te8 := 0; te9 := 0; te10 := 0; te11 := 0;
     te12 := 0; te13 := 0; te14 := 0; te15 := 0 |}.

Definition compose (position : Vector3) (quaternion : Quaternion) (scale : Vector3)
  : Mat4 :=
  let x := qx quaternion in let y := qy quaternion in
  let z := qz quaternion in let w := qw quaternion in
  let x2 := x + x in let y2 := y + y in let z2 := z + z in
  let xx := x * x2 in let xy := x * y2 in let xz := x * z2 in
  let yy := y * y2 in let yz := y * z2 in let zz := z * z2 in
  let wx := w * x2 in let wy := w * y2 in let wz := w * z2 in
  let sx := vx scale in let sy := vy scale in let sz := vz scale in
  {| te0 := (1 - (yy + zz)) * sx;
     te1 := (xy + wz) * sx;
     te2 := (xz - wy) * sx;
     te3 := 0;
     te4 := (xy - wz) * sy;
     te5 := (1 - (xx + zz)) * sy;
     te6 := (yz + wx) * sy;
     te7 := 0;
     te8 := (xz + wy) * sz;
     te9 := (yz - wx) * sz;
     te10 := (1 - (xx + yy)) * sz;
     te11 := 0;
     te12 := vx position;
     te13 := vy position;
     te14 := vz position;
     te15 := 1 |}.

(** [a.multiply(b)], that is [multiplyMatrices(a, b)]. *)
Definition multiply (a b : Mat4) : Mat4 :=
  let a11 := te0 a in let a12 := te4 a in let a13 := te8 a in let a14 := te12 a in
  let a21 := te1 a in let a22 := te5 a in let a23 := te9 a in let a24 := te13 a in
  let a31 := te2 a in let a32 := te6 a in let a33 := te10 a in let a34 := te14 a in
  let a41 := te3 a in let a42 := te7 a in let a43 := te11 a in let a44 := te15 a in
  let b11 := te0 b in let b12 := te4 b in let b13 := te8 b in let b14 := te12 b in
  let b21 := te1 b in let b22 := te5 b in let b23 := te9 b in let b24 := te13 b in
  let b31 := te2 b in let b32 := te6 b in let b33 := te10 b in let b34 := te14 b in
  let b41 := te3 b in let b42 := te7 b in let b43 := te11 b in let b44 := te15 b in
  {| te0 := a11 * b11 + a12 * b21 + a13 * b31 + a14 * b41;
     te4 := a11 * b12 + a12 * b22 + a13 * b32 + a14 * b42;
     te8 := a11 * b13 + a12 * b23 + a13 * b33 + a14 * b43;
     te12 := a11 * b14 + a12 * b24 + a13 * b34 + a14 * b44;
     te1 := a21 * b11 + a22 * b21 + a23 * b31 + a24 * b41;
     te5 := a21 * b12 + a22 * b22 + a23 * b32 + a24 * b42;
     te9 := a21 * b13 + a22 * b23 + a23 * b33 + a24 * b43;
     te13 := a21 * b14 + a22 * b24 + a23 * b34 + a24 * b44;
     te2 := a31 * b11 + a32 * b21 + a33 * b31 + a34 * b41;
     te6 := a31 * b12 + a32 * b22 + a33 * b32 + a34 * b42;
     te10 := a31 * b13 + a32 * b23 + a33 * b33 + a34 * b43;
     te14 := a31 * b14 + a32 * b24 + a33 * b34 + a34 * b44;
     te3 := a41 * b11 + a42 * b21 + a43 * b31 + a44 * b41;
     te7 := a41 * b12 + a42 * b22 + a43 * b32 + a44 * b42;
     te11 := a41 * b13 + a42 * b23 + a43 * b33 + a44 * b43;
     te15 := a41 * b14 + a42 * b24 + a43 * b34 + a44 * b44 |}.

Definition invert (m : Mat4) : Mat4 :=
  let n11 := te0 m in let n21 := te1 m in let n31 := te2 m in let n41 := te3 m in
  let n12 := te4 m in let n22 := te5 m in let n32 := te6 m in let n42 := te7 m in
  let n13 := te8 m in let n23 := te9 m in let n33 := te10 m in let n43 := te11 m in
  let n14 := te12 m in let n24 := te13 m in let n34 := te14 m in let n44 := te15 m in
  let t11 := n23 * n34 * n42 - n24 * n33 * n42 + n24 * n32 * n43
             - n22 * n34 * n43 - n23 * n32 * n44 + n22 * n33 * n44 in
  let t12 := n14 * n33 * n42 - n13 * n34 * n42 - n14 * n32 * n43
             + n12 * n34 * n43 + n13 * n32 * n44 - n12 * n33 * n44 in
  let t13 := n13 * n24 * n42 - n14 * n23 * n42 + n14 * n22 * n43
             - n12 * n24 * n43 - n13 * n22 * n44 + n12 * n23 * n44 in
  let t14 := n14 * n23 * n32 - n13 * n24 * n32 - n14 * n22 * n33
             + n12 * n24 * n33 + n13 * n22 * n34 - n12 * n23 * n34 in
  let det := n11 * t11 + n21 * t12 + n31 * t13 + n41 * t14 in
  if det =? 0 then zero
  else
    let detInv := 1 / det in
    {| te0 := t11 * detInv;
       te1 := (n24 * n33 * n41 - n23 * n34 * n41 - n24 * n31 * n43
               + n21 * n34 * n43 + n23 * n31 * n44 - n21 * n33 * n44) * detInv;
       te2 := (n22 * n34 * n41 - n24 * n32 * n41 + n24 * n31 * n42
               - n21 * n34 * n42 - n22 * n31 * n44 + n21 * n32 * n44) * detInv;
       te3 := (n23 * n32 * n41 - n22 * n33 * n41 - n23 * n31 * n42
               + n21 * n33 * n42 + n22 * n31 * n43 - n21 * n32 * n43) * detInv;
       te4 := t12 * detInv;
       te5 := (n13 * n34 * n41 - n14 * n33 * n41 + n14 * n31 * n43
               - n11 * n34 * n43 - n13 * n31 * n44 + n11 * n33 * n44) * detInv;
       te6 := (n14 * n32 * n41 - n12 * n34 * n41 - n14 * n31 * n42
               + n11 * n34 * n42 + n12 * n31 * n44 - n11 * n32 * n44) * detInv;
       te7 := (n12 * n33 * n41 - n13 * n32 * n41 + n13 * n31 * n42
               - n11 * n33 * n42 - n12 * n31 * n43 + n11 * n32 * n43) * detInv;
       te8 := t13 * detInv;
       te9 := (n14 * n23 * n41 - n13 * n24 * n41 - n14 * n21 * n43
               + n11 * n24 * n43 + n13 * n21 * n44 - n11 * n23 * n44) * detInv;
       te10 := (n12 * n24 * n41 - n14 * n22 * n41 + n14 * n21 * n42
                - n11 * n24 * n42 - n12 * n21 * n44 + n11 * n22 * n44) * detInv;
       te11 := (n13 * n22 * n41 - n12 * n23 * n41 - n13 * n21 * n42
                + n11 * n23 * n42 + n12 * n21 * n43 - n11 * n22 * n43) * detInv;
       te12 := t14 * detInv;
       te13 := (n13 * n24 * n31 - n14 * n23 * n31 + n14 * n21 * n33
                - n11 * n24 * n33 - n13 * n21 * n34 + n11 * n23 * n34) * detInv;
       te14 := (n14 * n22 * n31 - n12 * n24 * n31 - n14 * n21 * n32
                + n11 * n24 * n32 + n12 * n21 * n34 - n11 * n22 * n34) * detInv;
       te15 := (n12 * n23 * n31 - n13 * n22 * n31 + n13 * n21 * n32
                - n11 * n23 * n32 - n12 * n21 * n33 + n11 * n22 * n33) * detInv |}.

Definition determinant (m : Mat4) : float :=
  let n11 := te0 m in let n12 := te4 m in let n13 := te8 m in let n14 := te12 m in
  let n21 := te1 m in let n22 := te5 m in let n23 := te9 m in let n24 := te13 m in
  let n31 := te2 m in let n32 := te6 m in let n33 := te10 m in let n34 := te14 m in
  let n41 := te3 m in let n42 := te7 m in let n43 := te11 m in let n44 := te15 m in
  n41 * (n14 * n23 * n32 - n13 * n24 * n32 - n14 * n22 * n33
         + n12 * n24 * n33 + n13 * n22 * n34 - n12 * n23 * n34)
  + n42 * (n11 * n23 * n34 - n11 * n24 * n33 + n14 * n21 * n33
           - n13 * n21 * n34 + n13 * n24 * n31 - n14 * n23 * n31)
  + n43 * (n11 * n24 * n32 - n11 * n22 * n34 - n14 * n21 * n32
           + n12 * n21 * n34 + n14 * n22 * n31 - n12 * n24 * n31)
  + n44 * (- (n13 * n22 * n31) - n11 * n23 * n32 + n11 * n22 * n33
           + n13 * n21 * n32 - n12 * n21 * n33 + n12 * n23 * n31).

(** [Vector3.length]. *)
Definition vlength (x y z : float) : float := sqrt (x * x + y * y + z * z).

(** [Quaternion.setFromRotationMatrix] on the upper 3x3 part of [m]. *)
Definition setFromRotationMatrix (m : Mat4) : Quaternion :=
  let m11 := te0 m in let m12 := te4 m in let m13 := te8 m in
  let m21 := te1 m in let m22 := te5 m in let m23 := te9 m in
  let m31 := te2 m in let m32 := te6 m in let m33 := te10 m in
  let trace := m11 + m22 + m33 in
  if 0 <? trace then
    let s := 0.5 / sqrt (trace + 1) in
    {| qw := 0.25 / s; qx := (m32 - m23) * s;
       qy := (m13 - m31) * s; qz := (m21 - m12) * s |}
  else if (m22 <? m11) && (m33 <? m11) then
    let s := 2 * sqrt (1 + m11 - m22 - m33) in
    {| qw := (m32 - m23) / s; qx := 0.25 * s;
       qy := (m12 + m21) / s; qz := (m13 + m31) / s |}
  else if m33 <? m22 then
    let s := 2 * sqrt (1 + m22 - m11 - m33) in
    {| qw := (m13 - m31) / s; qx := (m12 + m21) / s;
       qy := 0.25 * s; qz := (m23 + m32) / s |}
  else
    let s := 2 * sqrt (1 + m33 - m11 - m22) in
    {| qw := (m21 - m12) / s; qx := (m13 + m31) / s;
       qy := (m23 + m32) / s; qz := 0.25 * s |}.

Definition decompose (m : Mat4) : Vector3 * Quaternion * Vector3 :=
  let sx := vlength (te0 m) (te1 m) (te2 m) in
  let sy := vlength (te4 m) (te5 m) (te6 m) in
  let sz := vlength (te8 m) (te9 m) (te10 m) in
  let det := determinant m in
  let sx := if det <? 0 then - sx else sx in
  let position := {| vx := te12 m; vy := te13 m; vz := te14 m |} in
  let invSX := 1 / sx in
  let invSY := 1 / sy in
  let invSZ := 1 / sz in
  let m1 :=
    {| te0 := te0 m * invSX; te1 := te1 m * invSX; te2 := te2 m * invSX;
       te3 := te3 m;
       te4 := te4 m * invSY; te5 := te5 m * invSY; te6 := te6 m * invSY;
       te7 := te7 m;
       te8 := te8 m * invSZ; te9 := te9 m * invSZ; te10 := te10 m * invSZ;
       te11 := te11 m;
       te12 := te12 m; te13 := te13 m; te14 := te14 m; te15 := te15 m |} in
  (position, setFromRotationMatrix m1, {| vx := sx; vy := sy; vz := sz |}).

Definition ops : Matrix4Ops :=
  {| Matrix4 := Mat4;
     m4_identity := identity;
     m4_compose := compose;
     m4_invert := invert;
     m4_multiply := multiply;
     m4_decompose := decompose |}.

End Three.

(** ** Vocabulary of the statements *)

(** Every entry is stored under its own [frame_id]. *)
Definition keys_match (tree : TFTree) : Prop :=
  ∀ k n, map_get tree k = Some n → node_frame_id n = k.

(** A frame that no entry of [ts] names as a child is a bare root. *)
Definition roots_bare (ts : list TransformStamped) (tree : TFTree) : Prop :=
  ∀ k n, map_get tree k = Some n → k ∉ child_frame_id <$> ts →
    parent_frame_id n = None ∧ node_transform n = identity_transform.

(** [parent_edge tree a b]: the node stored under [b] names [a] as its
    parent, the forward edge of line 290. *)
Definition parent_edge (tree : TFTree) (a b : string) : Prop :=
  ∃ n, map_get tree b = Some n ∧ parent_frame_id n = Some a.

(** Connected when the parent pointers are read in both directions. *)
Definition connected (tree : TFTree) : relation string := rtsc (parent_edge tree).

(** Every pair of neighbours of a list is related. *)
Fixpoint consecutive {A} (R : A → A → Prop) (l : list A) : Prop :=
  match l with
  | a :: (b :: _) as rest => R a b ∧ consecutive R rest
  | _ => True
  end.

(** An element pushed for the entry [(k, n)] while [frame] is expanded. *)
Definition pushed_for (visited : gset string) (frame : string) (path : list string)
    (k : string) (n : TFTreeNode) (item : QueueItem) : Prop :=
  item = (k, path ++ [k]) ∧ (k ∉ visited) ∧
  (parent_frame_id n = Some frame
   ∨ (parent_frame_id n = Some k ∧ node_frame_id n = frame)).

(** What one step of the search follows: the entry [(k, n)] passes one of
    the two tests of lines 246 and 251 while [frame] is expanded. *)
Definition bfs_edge (tree : TFTree) (frame k : string) : Prop :=
  k ≠ frame ∧
  ∃ n, (k, n) ∈ tree ∧
       (parent_frame_id n = Some frame
        ∨ (parent_frame_id n = Some k ∧ node_frame_id n = frame)).

(** A queue element whose path leads from [source] to its frame. *)
Definition item_ok (tree : TFTree) (source : string) (item : QueueItem) : Prop :=
  head item.2 = Some source ∧ last item.2 = Some item.1 ∧
  consecutive (bfs_edge tree) item.2.

(** What the loop over the map pushes when only the test of line 246 (the
    node is a child of [frame]) is counted. *)
Definition child_items (tree : TFTree) (visited : gset string)
    (frame : string) (path : list string) : list QueueItem :=
  tree ≫= λ '(nodeFrameId, node),
    if bool_decide (parent_frame_id node = Some frame ∧ nodeFrameId ∉ visited)
    then [(nodeFrameId, path ++ [nodeFrameId])] else [].

(** A chain of forward edges from [a] to [t] through frames that are not
    visited yet. *)
Inductive free_path (tree : TFTree) (visited : gset string) (t : string)
  : string → Prop :=
  | free_path_here : t ∉ visited → free_path tree visited t t
  | free_path_step a b :
      a ∉ visited → parent_edge tree a b → free_path tree visited t b →
      free_path tree visited t a.

(** The measure of the search loop: the queue still to pop, plus what the
    frames of [universe] not yet visited can push. *)
Definition bfs_potential (tree : TFTree) (universe visited : gset string)
    (queue : list QueueItem) : nat :=
  1 + length queue + (2 * length tree + 1) * size (universe ∖ visited).

(** ** The scenario of the specification *)

Definition mk_update (child parent : string) (T : Transform) (s ns : float)
  : TransformStamped :=
  {| header := {| frame_id := parent; stamp := {| sec := s; nsec := ns |} |};
     child_frame_id := child;
     transform := T |}.

Definition one_batch (ts : list TransformStamped) : list TFMessageEvent :=
  [ {| message := {| transforms := ts |} |} ].

(** A pure translation. *)
Definition tx (x y z : float) : Transform :=
  {| translation := {| vx := x; vy := y; vz := z |};
     rotation := {| qx := 0; qy := 0; qz := 0; qw := 1 |} |}.

(** [("sensor", "world", translation (1,0,0), rotation (0,0,0,1), 100)]. *)
Definition sensor_update : TransformStamped :=
  mk_update "sensor" "world" (tx 1 0 0) 0 100.

Definition sensor_tree : TFTree := updateTFTree [] (one_batch [sensor_update]).

(** Two updates that make each of "a" and "b" the parent of the other. *)
Definition cyclic_tree : TFTree :=
  updateTFTree [] (one_batch [mk_update "a" "b" (tx 1 0 0) 0 100;
                              mk_update "b" "a" (tx 0 1 0) 0 200]).

(** ** availableFrames (lines 147-165) *)

(** Truthiness of a string in a condition: every string but the empty one. *)
Definition truthy (s : string) : bool :=
  match s with EmptyString => false | String _ _ => true end.

(** The callback of [tfTree.forEach] at lines 152-157. *)
Definition add_node_frames (frames : gset string) (entry : string * TFTreeNode)
  : gset string :=
  let frames := {[node_frame_id entry.2]} ∪ frames in
  match parent_frame_id entry.2 with
  | Some parent => if truthy parent then {[parent]} ∪ frames else frames
  | None => frames
  end.

(** The [Set] built at lines 148-162. *)
Definition frame_set (tfTree : TFTree) (fixedFrame sensorFrameId : string)
  : gset string :=
  let frames := foldl add_node_frames {[fixedFrame]} tfTree in
  if truthy sensorFrameId then {[sensorFrameId]} ∪ frames else frames.

(** [Array.from(frames).sort()]: the default comparison orders strings by
    their code units, here the characters of the string; the elements of a
    set are distinct, so the sorted array does not depend on the order in
    which the set is listed. *)
Definition availableFrames (tfTree : TFTree) (fixedFrame sensorFrameId : string)
  : list string :=
  merge_sort String.le (elements (frame_set tfTree fixedFrame sensorFrameId)).

(** ** updateSensorPosition (lines 454-470) *)

(** The two properties of the sensor [THREE.Group] that the panel writes. *)
Record Group := { position : Vector3; quaternion : Quaternion }.

(** [sensorGroup] is [sensorGroupRef.current], [None] while the scene is not
    set up; the result is the group after the call. *)
Definition updateSensorPosition (ops : Matrix4Ops) (tfTree : TFTree)
    (sensorGroup : option Group) (sensorFrameId fixedFrame : string)
  : option Group :=
  match sensorGroup with
  | None => None
  | Some group =>
      if negb (truthy sensorFrameId) || bool_decide (sensorFrameId = fixedFrame)
      then Some group
      else
        match computeTransform ops tfTree fixedFrame sensorFrameId with
        | Some t =>
            Some {| position := {| vx := vx (translation t);
                                   vy := vy (translation t);
                                   vz := vz (translation t) |};
                    quaternion := {| qx := qx (rotation t); qy := qy (rotation t);
                                     qz := qz (rotation t); qw := qw (rotation t) |} |}
        | None => Some group
        end
  end.

(** ** Further vocabulary *)

(** Every parent pointer of the map names a key of the map. *)
Definition parents_present (tree : TFTree) : Prop :=
  ∀ k n p, map_get tree k = Some n → parent_frame_id n = Some p →
    map_has tree p = true.

(** The frames an update names. *)
Definition parent_frame (t : TransformStamped) : string := frame_id (header t).

(** Two updates forming the chain a -> b -> c. *)
Definition chain_ab : TransformStamped := mk_update "b" "a" (tx 1 0 0) 0 100.

Definition chain_bc : TransformStamped := mk_update "c" "b" (tx 0 1 0) 0 200.

Definition chain_tree : TFTree := updateTFTree [] (one_batch [chain_ab; chain_bc]).

(** A queue element whose path repeats no frame and, but for its last frame,
    runs through visited frames. *)
Definition item_simple (visited : gset string) (item : QueueItem) : Prop :=
  NoDup item.2 ∧ ∀ x, x ∈ item.2 → x ∈ visited ∨ x = item.1.

(** The pose written by [updateSensorPosition] for a resolved transform. *)
Definition pose_of (t : Transform) : Group :=
  {| position := {| vx := vx (translation t); vy := vy (translation t);
                    vz := vz (translation t) |};
     quaternion := {| qx := qx (rotation t); qy := qy (rotation t);
                      qz := qz (rotation t); qw := qw (rotation t) |} |}.

(** A later entry for "sensor" with another parent and an older stamp. *)
Definition sensor_rebase : TransformStamped :=
  mk_update "sensor" "base" (tx 0 0 2) 0 50.

(** An entry that names "sensor" as the parent of "tool". *)
Definition tool_update : TransformStamped :=
  mk_update "tool" "sensor" (tx 0 0 1) 1 0.

(** A pose away from the origin. *)
Definition parked_group : Group :=
  {| position := {| vx := 5; vy := 5; vz := 5 |};
     quaternion := {| qx := 0; qy := 0; qz := 0; qw := 1 |} |}.

(** * Properties *)

(** ** The map and [updateTFTree] *)

Lemma map_get_set (m : TFTree) k v k' :
  map_get (map_set m k v) k' = if decide (k = k') then Some v else map_get m k'.
Proof.
  induction m as [|[k0 v0] m IH]; simpl.
  - repeat case_decide; congruence.
  - repeat (case_decide; simpl); try congruence.
Qed.

Lemma map_has_set (m : TFTree) k v k' :
  map_has (map_set m k v) k' = if decide (k = k') then true else map_has m k'.
Proof. unfold map_has. rewrite map_get_set. by case_decide. Qed.

Lemma map_set_same (m : TFTree) k v :
  map_get m k = Some v → map_set m k v = m.
Proof.
  induction m as [|[k0 v0] m IH]; simpl; [done|].
  case_decide; intros Hg; simplify_eq; [done|]. by rewrite IH.
Qed.

Lemma map_keys_set (m : TFTree) k v :
  map_keys (map_set m k v) =
  if map_has m k then map_keys m else map_keys m ++ [k].
Proof.
  unfold map_has, map_keys.
  induction m as [|[k0 v0] m IH]; simpl; [done|].
  case_decide; simplify_eq/=; [done|].
  rewrite IH. by destruct (map_get m k).
Qed.

Lemma apply_transform_unfold tree t :
  apply_transform tree t =
  let stored := map_set tree (child_frame_id t) (child_node t) in
  if map_has stored (frame_id (header t)) then stored
  else map_set stored (frame_id (header t)) (placeholder_node t).
Proof. reflexivity. Qed.

Lemma apply_transform_get tree t k :
  map_get (apply_transform tree t) k =
  if decide (k = child_frame_id t) then Some (child_node t)
  else if decide (k = frame_id (header t)) then
    Some (default (placeholder_node t) (map_get tree k))
  else map_get tree k.
Proof.
  rewrite apply_transform_unfold. cbn zeta.
  rewrite map_has_set. unfold map_has.
  repeat case_decide; simplify_eq/=;
    rewrite ?map_get_set; repeat case_decide; simplify_eq/=; try done.
  all: destruct (map_get tree _) eqn:E; rewrite ?map_get_set;
    repeat case_decide; simplify_eq/=; try done.
Qed.

Lemma apply_transform_has tree t k :
  map_has tree k = true → map_has (apply_transform tree t) k = true.
Proof.
  unfold map_has. rewrite apply_transform_get.
  destruct (map_get tree k); [|done]. intros _. by repeat case_decide.
Qed.

Lemma updateTFTree_entries prev msgs :
  updateTFTree prev msgs = foldl apply_transform prev (batch_entries msgs).
Proof.
  unfold updateTFTree, batch_entries. revert prev.
  induction msgs as [|m msgs IH]; intros prev; simpl; [done|].
  by rewrite foldl_app, IH.
Qed.

Lemma apply_transform_twice tree t :
  apply_transform (apply_transform tree t) t = apply_transform tree t.
Proof.
  assert (Hc : map_get (apply_transform tree t) (child_frame_id t) = Some (child_node t)).
  { rewrite apply_transform_get. by case_decide. }
  assert (Hp : map_has (apply_transform tree t) (frame_id (header t)) = true).
  { unfold map_has. rewrite apply_transform_get. by repeat case_decide. }
  rewrite (apply_transform_unfold (apply_transform tree t)). cbn zeta.
  rewrite (map_set_same _ _ _ Hc). by rewrite Hp.
Qed.

Lemma foldl_apply_transform_has tree ts k :
  map_has tree k = true → map_has (foldl apply_transform tree ts) k = true.
Proof.
  revert tree. induction ts as [|t ts IH]; intros tree Hk; simpl; [done|].
  by apply IH, apply_transform_has.
Qed.

Lemma run_updates_entries batches :
  run_updates batches = foldl apply_transform [] (session_entries batches).
Proof.
  unfold run_updates, session_entries. generalize (@nil (string * TFTreeNode)).
  induction batches as [|b bs IH]; intros tree; simpl; [done|].
  by rewrite foldl_app, IH, updateTFTree_entries.
Qed.

Lemma keys_match_apply tree t :
  keys_match tree → keys_match (apply_transform tree t).
Proof.
  intros Hm k n. rewrite apply_transform_get.
  repeat case_decide; intros Hn; simplify_eq/=; [done| |by apply Hm].
  destruct (map_get tree (frame_id (header t))) eqn:E; simpl; [by apply Hm|done].
Qed.

Lemma keys_match_foldl tree ts :
  keys_match tree → keys_match (foldl apply_transform tree ts).
Proof.
  revert tree. induction ts as [|t ts IH]; intros tree Hm; simpl; [done|].
  by apply IH, keys_match_apply.
Qed.

Lemma keys_match_run batches : keys_match (run_updates batches).
Proof. rewrite run_updates_entries. by apply keys_match_foldl. Qed.

Lemma roots_bare_foldl ts :
  roots_bare ts (foldl apply_transform [] ts).
Proof.
  induction ts as [|t ts IH] using rev_ind; [done|].
  rewrite foldl_app. simpl. intros k n.
  rewrite apply_transform_get, fmap_app, elem_of_app. simpl.
  repeat case_decide; intros Hn Hk; simplify_eq/=.
  - exfalso. apply Hk. right. by left.
  - destruct (map_get _ (frame_id (header t))) eqn:E; simpl; [|done].
    apply (IH _ _ E). tauto.
  - apply (IH _ _ Hn). tauto.
Qed.

(** *** What one expansion pushes *)

Lemma visit_entry_length visited frame path entry :
  length (visit_entry visited frame path entry) ≤ 2.
Proof.
  destruct entry as [k n]. unfold visit_entry.
  rewrite length_app. repeat case_bool_decide; simpl; lia.
Qed.

Lemma push_neighbours_length tree visited frame path :
  length (push_neighbours tree visited frame path) ≤ 2 * length tree.
Proof.
  unfold push_neighbours. induction tree as [|e tree IH]; [simpl; lia|].
  rewrite bind_cons, length_app, length_cons.
  pose proof (visit_entry_length visited frame path e). lia.
Qed.

Lemma elem_of_push_neighbours tree visited frame path item :
  item ∈ push_neighbours tree visited frame path →
  ∃ k n, (k, n) ∈ tree ∧ pushed_for visited frame path k n item.
Proof.
  unfold push_neighbours. rewrite list_elem_of_bind.
  intros ([k n] & Hitem & Hin). exists k, n. split; [done|].
  unfold visit_entry in Hitem. rewrite elem_of_app in Hitem.
  unfold pushed_for.
  destruct Hitem as [Hitem|Hitem]; case_bool_decide as Hc;
    try (by apply elem_of_nil in Hitem);
    apply list_elem_of_singleton in Hitem; subst item.
  - destruct Hc as [Hp Hv]. auto.
  - destruct Hc as (Hp & Hf & Hv). auto.
Qed.

Lemma push_neighbours_keys tree visited frame path item :
  item ∈ push_neighbours tree visited frame path → item.1 ∈ map_keys tree.
Proof.
  intros (k & n & Hin & -> & _)%elem_of_push_neighbours. simpl.
  unfold map_keys. apply list_elem_of_fmap. by exists (k, n).
Qed.

(** *** Termination *)

Section bfs_termination.
Variable tree : TFTree.
Variable targetFrame : string.
(** Every frame the search can ever hold: the keys and the source. *)
Variable universe : gset string.
Hypothesis universe_keys : ∀ k, k ∈ map_keys tree → k ∈ universe.

Lemma bfs_loop_fuel_enough fuel visited queue :
  (∀ item, item ∈ queue → item.1 ∈ universe) →
  bfs_potential tree universe visited queue ≤ fuel →
  is_Some (bfs_loop fuel tree targetFrame visited queue).
Proof.
  revert visited queue. unfold bfs_potential.
  induction fuel as [|fuel IH]; intros visited queue Hq Hfuel; [lia|].
  destruct queue as [|[frame path] queue]; simpl; [by eexists|].
  case_decide; [by eexists|].
  simpl in Hfuel. case_decide as Hvis.
  - apply IH; [|lia]. intros item ?. apply Hq. by right.
  - assert (Hframe : frame ∈ universe) by (apply (Hq (frame, path)); by left).
    apply IH.
    + intros item [?|?%push_neighbours_keys]%elem_of_app; [|by auto].
      apply Hq. by right.
    + rewrite length_app.
      pose proof (push_neighbours_length tree ({[frame]} ∪ visited) frame path).
      assert (size (universe ∖ visited) =
              S (size (universe ∖ ({[frame]} ∪ visited)))) as Hsize.
      { replace (universe ∖ visited)
          with ({[frame]} ∪ universe ∖ ({[frame]} ∪ visited)).
        - rewrite size_union by set_solver. by rewrite size_singleton.
        - apply set_eq. intros x. destruct (decide (x = frame)); set_solver. }
      rewrite Hsize, Nat.mul_succ_r in Hfuel. lia.
Qed.

End bfs_termination.

Lemma bfs_loop_more_fuel fuel extra tree targetFrame visited queue path :
  bfs_loop fuel tree targetFrame visited queue = Some path →
  bfs_loop (fuel + extra) tree targetFrame visited queue = Some path.
Proof.
  revert visited queue. induction fuel as [|fuel IH]; intros visited queue; [done|].
  simpl. destruct queue as [|[frame p] queue]; [done|].
  repeat case_decide; auto.
Qed.

Lemma size_list_to_set_bound (l : list string) :
  size (list_to_set l : gset string) ≤ length l.
Proof.
  induction l as [|x l IH].
  - by rewrite list_to_set_nil, size_empty.
  - rewrite list_to_set_cons, size_union_alt, size_singleton, length_cons.
    pose proof (subseteq_size (list_to_set l ∖ {[x]}) (list_to_set l : gset string)
                  ltac:(set_solver)). lia.
Qed.

Lemma size_universe_bound (tree : TFTree) (sourceFrame : string) :
  size (({[sourceFrame]} ∪ list_to_set (map_keys tree)) : gset string)
  ≤ length tree + 1.
Proof.
  rewrite size_union_alt, size_singleton.
  pose proof (subseteq_size (list_to_set (map_keys tree) ∖ {[sourceFrame]})
                (list_to_set (map_keys tree) : gset string) ltac:(set_solver)).
  pose proof (size_list_to_set_bound (map_keys tree)) as Hk.
  unfold map_keys in Hk at 2. rewrite length_fmap in Hk. lia.
Qed.

Lemma findTransformPath_fuel_enough tree sourceFrame targetFrame :
  is_Some (findTransformPath_fuel (bfs_fuel tree) tree sourceFrame targetFrame).
Proof.
  unfold findTransformPath_fuel. case_decide; [by eexists|].
  apply (bfs_loop_fuel_enough tree targetFrame
           ({[sourceFrame]} ∪ list_to_set (map_keys tree))).
  - set_solver.
  - intros item ->%list_elem_of_singleton. set_solver.
  - unfold bfs_potential, bfs_fuel. rewrite difference_empty_L. simpl.
    pose proof (size_universe_bound tree sourceFrame). nia.
Qed.

Lemma consecutive_snoc {A} (R : A → A → Prop) l a b :
  consecutive R l → last l = Some a → R a b → consecutive R (l ++ [b]).
Proof.
  induction l as [|x [|y l] IH]; intros Hc Hl HR; [done| |].
  - simpl in *. by simplify_eq.
  - destruct Hc as [Hxy Hc]. split; [done|]. by apply IH.
Qed.

Lemma consecutive_impl {A} (R S : A → A → Prop) l :
  (∀ a b, R a b → S a b) → consecutive R l → consecutive S l.
Proof.
  intros HRS. induction l as [|x [|y l] IH]; [done..|].
  intros [? ?]. split; auto.
Qed.

Lemma consecutive_rtc {A} (R : A → A → Prop) l a b :
  consecutive R l → head l = Some a → last l = Some b → rtc R a b.
Proof.
  revert a. induction l as [|x [|y l] IH]; intros a Hc Hh Hl; [done| |].
  - by simplify_eq/=.
  - destruct Hc as [Hxy Hc]. simpl in Hh. simplify_eq.
    eapply rtc_l; [done|]. by apply IH.
Qed.

Lemma bfs_loop_item_ok tree source targetFrame fuel visited queue path :
  (∀ item, item ∈ queue → item_ok tree source item) →
  bfs_loop fuel tree targetFrame visited queue = Some path →
  path = [] ∨ item_ok tree source (targetFrame, path).
Proof.
  revert visited queue.
  induction fuel as [|fuel IH]; intros visited queue Hq; [done|]. simpl.
  destruct queue as [|[frame p] queue]; [naive_solver|].
  assert (Hhd : item_ok tree source (frame, p)) by (apply Hq; by left).
  case_decide; [intros; simplify_eq; by right|].
  case_decide.
  - apply IH. intros item ?. apply Hq. by right.
  - apply IH. intros item [?|Hin]%elem_of_app; [apply Hq; by right|].
    apply elem_of_push_neighbours in Hin as (k & n & Hkn & -> & Hk & Hedge).
    destruct Hhd as (Hh & Hl & Hc). simpl in *.
    split; [|split]; simpl.
    + destruct p; by simplify_eq/=.
    + by rewrite last_snoc.
    + eapply consecutive_snoc; [done..|].
      split; [set_solver|]. by exists n.
Qed.

Lemma findTransformPath_fuel_item_ok tree fuel sourceFrame targetFrame path :
  findTransformPath_fuel fuel tree sourceFrame targetFrame = Some path →
  path = [] ∨ item_ok tree sourceFrame (targetFrame, path).
Proof.
  unfold findTransformPath_fuel. case_decide.
  - intros. simplify_eq. right. done.
  - apply bfs_loop_item_ok. intros item ->%list_elem_of_singleton. done.
Qed.

Lemma findTransformPath_item_ok tree sourceFrame targetFrame :
  findTransformPath tree sourceFrame targetFrame = [] ∨
  item_ok tree sourceFrame (targetFrame, findTransformPath tree sourceFrame targetFrame).
Proof.
  unfold findTransformPath.
  destruct (findTransformPath_fuel _ _ _ _) as [path|] eqn:E; [|by left].
  by apply findTransformPath_fuel_item_ok in E.
Qed.

Lemma findTransformPath_more_fuel tree sourceFrame targetFrame extra :
  findTransformPath_fuel (bfs_fuel tree + extra) tree sourceFrame targetFrame =
  Some (findTransformPath tree sourceFrame targetFrame).
Proof.
  unfold findTransformPath.
  destruct (findTransformPath_fuel_enough tree sourceFrame targetFrame) as [path E].
  rewrite E. change (default [] (Some path)) with path.
  revert E. unfold findTransformPath_fuel.
  case_decide; [done|]. apply bfs_loop_more_fuel.
Qed.

(** *** No frame is expanded twice *)

Lemma bfs_expanded_fresh fuel tree targetFrame visited queue :
  NoDup (bfs_expanded fuel tree targetFrame visited queue) ∧
  ∀ x, x ∈ bfs_expanded fuel tree targetFrame visited queue → x ∉ visited.
Proof.
  revert visited queue. induction fuel as [|fuel IH]; intros visited queue; simpl.
  { split; [constructor|]. by intros x ?%elem_of_nil. }
  destruct queue as [|[frame p] queue].
  { split; [constructor|]. by intros x ?%elem_of_nil. }
  case_decide.
  { split; [constructor|]. by intros x ?%elem_of_nil. }
  case_decide as Hvis; [apply IH|].
  destruct (IH ({[frame]} ∪ visited)
              (queue ++ push_neighbours tree ({[frame]} ∪ visited) frame p))
    as [Hnd Hfresh].
  split.
  - constructor; [|done]. intros Hin%Hfresh. set_solver.
  - intros x [->|Hin%Hfresh]%elem_of_cons; [done|set_solver].
Qed.

(** *** Maps built by [map_set] have no duplicate key *)

Lemma map_keys_set_NoDup (m : TFTree) k v :
  NoDup (map_keys m) → NoDup (map_keys (map_set m k v)).
Proof.
  intros Hnd. rewrite map_keys_set. unfold map_has.
  destruct (map_get m k) eqn:E; [done|].
  apply NoDup_app. split; [done|]. split; [|apply NoDup_singleton].
  intros x Hx ->%list_elem_of_singleton.
  unfold map_keys in Hx. apply list_elem_of_fmap in Hx as ([k' n] & -> & Hin).
  simpl in E. clear Hnd. induction m as [|[k0 v0] m IH]; [by apply elem_of_nil in Hin|].
  simpl in E. case_decide; [done|].
  apply elem_of_cons in Hin as [?|?]; [by simplify_eq|auto].
Qed.

Lemma apply_transform_NoDup tree t :
  NoDup (map_keys tree) → NoDup (map_keys (apply_transform tree t)).
Proof.
  intros Hnd. rewrite apply_transform_unfold. cbn zeta.
  destruct (map_has _ _); auto using map_keys_set_NoDup.
Qed.

Lemma run_updates_NoDup batches : NoDup (map_keys (run_updates batches)).
Proof.
  rewrite run_updates_entries.
  assert (Hnil : NoDup (map_keys [])) by constructor.
  revert Hnil. generalize (@nil (string * TFTreeNode)).
  induction (session_entries batches) as [|t ts IH]; intros tree Hnd; simpl; [done|].
  by apply IH, apply_transform_NoDup.
Qed.

Lemma map_get_elem_of (m : TFTree) k n :
  NoDup (map_keys m) → (k, n) ∈ m → map_get m k = Some n.
Proof.
  unfold map_keys. induction m as [|[k0 v0] m IH]; intros Hnd Hin.
  - by apply elem_of_nil in Hin.
  - rewrite fmap_cons in Hnd. apply NoDup_cons in Hnd as [Hk0 Hnd]. simpl.
    apply elem_of_cons in Hin as [?|Hin]; simplify_eq.
    + by rewrite decide_True.
    + rewrite decide_False; [by apply IH|].
      intros ->. apply Hk0, list_elem_of_fmap. by exists (k, n).
Qed.

(** On a map whose entries sit under their own [frame_id] the test of line
    251 never succeeds: the search only descends to children. *)
Lemma bfs_edge_parent_edge tree a b :
  NoDup (map_keys tree) → keys_match tree →
  bfs_edge tree a b → parent_edge tree a b.
Proof.
  intros Hnd Hkm (Hne & n & Hin & Hcase).
  apply map_get_elem_of in Hin; [|done].
  destruct Hcase as [Hp|[Hp Hf]]; [by exists n|].
  apply Hkm in Hin. congruence.
Qed.

(** *** The edge lookup of the composer *)

Lemma edge_transform_forward tree a b :
  parent_edge tree a b → ∃ t, edge_transform tree a b = Some (t, false).
Proof.
  intros (n & Hn & Hp). unfold edge_transform. rewrite Hn.
  rewrite decide_True by done. eauto.
Qed.

Lemma edge_transform_Some tree a b r :
  edge_transform tree a b = Some r → sc (parent_edge tree) a b.
Proof.
  unfold edge_transform.
  destruct (map_get tree b) as [nb|] eqn:Eb.
  - case_decide as Hb; [intros _; left; by exists nb|].
    destruct (map_get tree a) as [na|] eqn:Ea; [|done].
    case_decide; [|done]. intros _. right. by exists na.
  - destruct (map_get tree a) as [na|] eqn:Ea; [|done].
    case_decide; [|done]. intros _. right. by exists na.
Qed.

Lemma walk_path_Some ops tree acc path m :
  walk_path ops tree acc path = Some m →
  consecutive (sc (parent_edge tree)) path.
Proof.
  revert acc. induction path as [|a [|b path] IH]; intros acc; [done..|].
  cbn [walk_path].
  destruct (edge_transform tree a b) as [[t inv]|] eqn:E; [|done].
  intros Hw. split; [by eapply edge_transform_Some|]. by eapply IH.
Qed.

Lemma computeTransform_Some_connected ops tree sourceFrame targetFrame t :
  computeTransform ops tree sourceFrame targetFrame = Some t →
  connected tree sourceFrame targetFrame.
Proof.
  unfold computeTransform, connected.
  case_decide; [intros _; by subst|].
  cbn zeta. case_decide as Hlen; [done|].
  destruct (walk_path _ _ _ _) as [m|] eqn:Hw; [|done]. intros _.
  apply walk_path_Some in Hw.
  destruct (findTransformPath_item_ok tree sourceFrame targetFrame)
    as [Hnil|(Hh & Hl & _)].
  - rewrite Hnil in Hlen. simpl in Hlen. lia.
  - by eapply consecutive_rtc.
Qed.

(** *** A single update on the empty map *)

Lemma single_update_tree t :
  child_frame_id t ≠ frame_id (header t) →
  updateTFTree [] (one_batch [t]) =
  [(child_frame_id t, child_node t); (frame_id (header t), placeholder_node t)].
Proof.
  intros Hne. unfold updateTFTree, one_batch. simpl.
  rewrite apply_transform_unfold. simpl. unfold map_has. simpl.
  rewrite decide_False by done. simpl. by rewrite decide_False by done.
Qed.

Lemma bfs_loop_unfold fuel tree targetFrame visited frame path queue :
  bfs_loop (S fuel) tree targetFrame visited ((frame, path) :: queue) =
  if decide (frame = targetFrame) then Some path
  else if decide (frame ∈ visited) then bfs_loop fuel tree targetFrame visited queue
  else bfs_loop fuel tree targetFrame ({[frame]} ∪ visited)
         (queue ++ push_neighbours tree ({[frame]} ∪ visited) frame path).
Proof. reflexivity. Qed.

Lemma push_neighbours_nil visited frame path :
  push_neighbours [] visited frame path = [].
Proof. reflexivity. Qed.

Lemma push_neighbours_cons entry tree visited frame path :
  push_neighbours (entry :: tree) visited frame path =
  visit_entry visited frame path entry ++ push_neighbours tree visited frame path.
Proof. reflexivity. Qed.

Lemma single_update_path_down t :
  child_frame_id t ≠ frame_id (header t) →
  findTransformPath (updateTFTree [] (one_batch [t]))
    (frame_id (header t)) (child_frame_id t) =
  [frame_id (header t); child_frame_id t].
Proof.
  intros Hne. rewrite single_update_tree by done.
  unfold findTransformPath, findTransformPath_fuel.
  rewrite decide_False by done.
  change (bfs_fuel _) with 17.
  rewrite bfs_loop_unfold, decide_False, decide_False by set_solver.
  rewrite !push_neighbours_cons, push_neighbours_nil.
  unfold visit_entry.
  cbn [child_node placeholder_node parent_frame_id node_frame_id].
  rewrite bool_decide_eq_true_2 by (split; [done|set_solver]).
  rewrite !bool_decide_eq_false_2 by naive_solver.
  cbn [app].
  by rewrite bfs_loop_unfold, decide_True.
Qed.

Lemma single_update_path_up t :
  child_frame_id t ≠ frame_id (header t) →
  findTransformPath (updateTFTree [] (one_batch [t]))
    (child_frame_id t) (frame_id (header t)) = [].
Proof.
  intros Hne. rewrite single_update_tree by done.
  unfold findTransformPath, findTransformPath_fuel.
  rewrite decide_False by done.
  change (bfs_fuel _) with 17.
  rewrite bfs_loop_unfold, decide_False, decide_False by set_solver.
  rewrite !push_neighbours_cons, push_neighbours_nil.
  unfold visit_entry.
  cbn [child_node placeholder_node parent_frame_id node_frame_id].
  rewrite !bool_decide_eq_false_2 by naive_solver.
  reflexivity.
Qed.

Lemma computeTransform_unfold ops tree sourceFrame targetFrame :
  computeTransform ops tree sourceFrame targetFrame =
  if decide (sourceFrame = targetFrame) then Some identity_transform
  else if decide (length (findTransformPath tree sourceFrame targetFrame) < 2) then None
  else decomposed ops <$>
       walk_path ops tree (m4_identity ops)
         (findTransformPath tree sourceFrame targetFrame).
Proof.
  unfold computeTransform. by repeat case_decide.
Qed.

Example sensor_tree_down :
  computeTransform Three.ops sensor_tree "world" "sensor" = Some (tx 1 0 0).
Proof. vm_compute. reflexivity. Qed.

Example sensor_tree_up :
  computeTransform Three.ops sensor_tree "sensor" "world" = None.
Proof. vm_compute. reflexivity. Qed.

Lemma push_neighbours_child_items tree visited frame path :
  (∀ k n, (k, n) ∈ tree → node_frame_id n = k) →
  push_neighbours tree ({[frame]} ∪ visited) frame path =
  child_items tree ({[frame]} ∪ visited) frame path.
Proof.
  unfold push_neighbours, child_items.
  induction tree as [|[k n] tree IH]; intros Hkm; [done|].
  rewrite !bind_cons, IH by (intros ???; apply Hkm; by right).
  f_equal. unfold visit_entry.
  rewrite (bool_decide_eq_false_2 (_ ∧ _ ∧ _)); [by rewrite app_nil_r|].
  intros (_ & Hf & Hv). apply Hv.
  rewrite <- Hf, (Hkm k n) by by left. set_solver.
Qed.

Lemma run_updates_entries_match batches k n :
  (k, n) ∈ run_updates batches → node_frame_id n = k.
Proof.
  intros Hin. apply (keys_match_run batches).
  apply map_get_elem_of; [apply run_updates_NoDup|done].
Qed.

(** *** The search reaches exactly the descendants *)

Lemma free_path_start tree visited t a :
  free_path tree visited t a → a ∉ visited.
Proof. by destruct 1. Qed.

Lemma rtc_free_path tree s t :
  rtc (parent_edge tree) s t → free_path tree ∅ t s.
Proof.
  induction 1 as [|a b c Hab _ IH]; [by constructor|].
  by eapply free_path_step.
Qed.

Lemma free_path_expand tree visited t f a :
  f ≠ t → free_path tree visited t a →
  free_path tree ({[f]} ∪ visited) t a ∨
  ∃ b, parent_edge tree f b ∧ free_path tree ({[f]} ∪ visited) t b.
Proof.
  intros Hft. induction 1 as [Ht|a b Ha Hab _ IH].
  - left. constructor. set_solver.
  - destruct IH as [Hb|?]; [|by right].
    destruct (decide (a = f)) as [->|Hne].
    + right. by exists b.
    + left. eapply free_path_step; [set_solver|done..].
Qed.

Lemma map_get_Some_elem_of (m : TFTree) k n :
  map_get m k = Some n → (k, n) ∈ m.
Proof.
  induction m as [|[k0 v0] m IH]; simpl; [done|].
  case_decide; intros Hn; simplify_eq; [by left|]. right. auto.
Qed.

Lemma push_neighbours_child tree visited frame path b :
  parent_edge tree frame b → b ∉ visited →
  (b, path ++ [b]) ∈ push_neighbours tree visited frame path.
Proof.
  intros (n & Hn%map_get_Some_elem_of & Hp) Hb.
  unfold push_neighbours. apply list_elem_of_bind. exists (b, n).
  split; [|done]. unfold visit_entry. apply elem_of_app. left.
  rewrite bool_decide_eq_true_2 by done. by left.
Qed.

Lemma bfs_loop_reaches tree targetFrame fuel visited queue path :
  (∃ item, item ∈ queue ∧ free_path tree visited targetFrame item.1) →
  (∀ item, item ∈ queue → item.2 ≠ []) →
  bfs_loop fuel tree targetFrame visited queue = Some path →
  path ≠ [].
Proof.
  revert visited queue.
  induction fuel as [|fuel IH]; intros visited queue Hinv Hne; [done|]. simpl.
  destruct queue as [|[frame p] queue].
  { destruct Hinv as (item & []%elem_of_nil & _). }
  case_decide as Htarget.
  { intros ?; simplify_eq. apply (Hne (targetFrame, path)). by left. }
  assert (Hrest : ∀ item, item ∈ queue → item.2 ≠ [])
    by (intros item ?; apply Hne; by right).
  destruct Hinv as (item & Hitem & Hfree).
  case_decide as Hvis.
  - apply IH; [|done]. exists item. split; [|done].
    apply elem_of_cons in Hitem as [->|?]; [|done].
    by apply free_path_start in Hfree.
  - apply IH.
    + destruct (free_path_expand _ _ _ frame _ Htarget Hfree) as [Hfree'|(b & Hb & Hfree')].
      * exists item. split; [|done]. apply elem_of_app. left.
        apply elem_of_cons in Hitem as [->|?]; [|done].
        apply free_path_start in Hfree'. set_solver.
      * exists (b, p ++ [b]). split; [|done]. apply elem_of_app. right.
        apply push_neighbours_child; [done|]. by apply free_path_start in Hfree'.
    + intros it [?|Hin]%elem_of_app; [by apply Hrest|].
      apply elem_of_push_neighbours in Hin as (k & n & _ & -> & _). simpl.
      by destruct p.
Qed.

(** The search reaches every descendant of the source. *)
Lemma findTransformPath_reaches_descendants tree sourceFrame targetFrame :
  rtc (parent_edge tree) sourceFrame targetFrame →
  findTransformPath tree sourceFrame targetFrame ≠ [].
Proof.
  intros Hrtc. unfold findTransformPath.
  destruct (findTransformPath_fuel_enough tree sourceFrame targetFrame) as [path E].
  rewrite E. change (default [] (Some path)) with path.
  revert E. unfold findTransformPath_fuel. case_decide; [by intros; simplify_eq|].
  apply bfs_loop_reaches.
  - exists (sourceFrame, [sourceFrame]). split; [by left|]. by apply rtc_free_path.
  - by intros item ->%list_elem_of_singleton.
Qed.

Lemma walk_path_forward ops tree acc path :
  consecutive (λ a b, ∃ T, edge_transform tree a b = Some (T, false)) path →
  is_Some (walk_path ops tree acc path).
Proof.
  revert acc. induction path as [|a [|b path] IH]; intros acc; [by eexists..|].
  intros [[T HT] Hc]. cbn [walk_path]. rewrite HT. by apply IH.
Qed.

Lemma item_ok_length tree s t path :
  s ≠ t → item_ok tree s (t, path) → ¬ length path < 2.
Proof.
  intros Hne (Hh & Hl & _). simpl in *.
  destruct path as [|a [|b path]]; simplify_eq/=; lia.
Qed.

(** On the maps a session can build, [computeTransform] resolves a pair of
    frames exactly when the target is the source or one of its descendants. *)
Lemma computeTransform_resolves_descendants ops batches sourceFrame targetFrame :
  is_Some (computeTransform ops (run_updates batches) sourceFrame targetFrame) ↔
  rtc (parent_edge (run_updates batches)) sourceFrame targetFrame.
Proof.
  set (tree := run_updates batches).
  assert (Hchain : consecutive (parent_edge tree)
                     (findTransformPath tree sourceFrame targetFrame)).
  { destruct (findTransformPath_item_ok tree sourceFrame targetFrame)
      as [Hnil|(_ & _ & Hc)]; [by rewrite Hnil|].
    eapply consecutive_impl; [|exact Hc].
    intros a b. apply bfs_edge_parent_edge;
      [apply run_updates_NoDup|apply keys_match_run]. }
  rewrite computeTransform_unfold.
  destruct (decide (sourceFrame = targetFrame)) as [->|Hne]; [by split; eauto|].
  destruct (findTransformPath_item_ok tree sourceFrame targetFrame)
    as [Hnil|Hok].
  - rewrite Hnil. simpl length. rewrite decide_True by lia. split.
    + by intros [? ?].
    + intros Hrtc%findTransformPath_reaches_descendants. done.
  - rewrite decide_False by by eapply item_ok_length.
    split.
    + intros _. destruct Hok as (Hh & Hl & _). by eapply consecutive_rtc.
    + intros _. apply fmap_is_Some, walk_path_forward.
      eapply consecutive_impl; [|exact Hchain]. apply edge_transform_forward.
Qed.

(** ** The claims *)

Lemma walk_path_two ops tree acc a b T :
  edge_transform tree a b = Some (T, false) →
  walk_path ops tree acc [a; b] =
  Some (m4_multiply ops acc (edge_matrix ops T false)).
Proof. intros E. cbn [walk_path]. by rewrite E. Qed.

(** C1 (defect).  After one update (child, parent, T, ts) on the empty map,
    with distinct frames, resolving parent-to-child walks the single forward
    edge and returns T as it comes back from [decompose] of
    [identity * compose(T)].  Resolving child-to-parent does not return the
    inverse: the search finds no path (it never steps from a frame to its
    parent) and [computeTransform] returns [null]. *)
Theorem single_update_resolution ops t :
  child_frame_id t ≠ frame_id (header t) →
  let tree := updateTFTree [] (one_batch [t]) in
  computeTransform ops tree (frame_id (header t)) (child_frame_id t) =
    Some (decomposed ops
            (m4_multiply ops (m4_identity ops) (edge_matrix ops (transform t) false))) ∧
  findTransformPath tree (child_frame_id t) (frame_id (header t)) = [] ∧
  computeTransform ops tree (child_frame_id t) (frame_id (header t)) = None.
Proof.
  intros Hne tree. subst tree. rewrite !computeTransform_unfold.
  rewrite single_update_path_down, single_update_path_up by done.
  simpl length.
  split_and!; repeat case_decide; try lia; try done.
  erewrite walk_path_two; [done|].
  rewrite single_update_tree by done.
  unfold edge_transform. simpl. by rewrite !decide_True.
Qed.

Lemma single_update_resolution_witness :
  child_frame_id sensor_update ≠ frame_id (header sensor_update) ∧
  computeTransform Three.ops sensor_tree "world" "sensor" = Some (tx 1 0 0) ∧
  findTransformPath sensor_tree "sensor" "world" = [] ∧
  computeTransform Three.ops sensor_tree "sensor" "world" = None.
Proof.
  assert (Hne : child_frame_id sensor_update ≠ frame_id (header sensor_update))
    by (vm_compute; discriminate).
  split; [exact Hne|].
  exact (single_update_resolution Three.ops sensor_update Hne).
Defined.

(** C2 (defect).  The neighbour relation of the search is not the one the
    comment of line 243 announces.  On every map a session can build, the
    elements pushed while a frame is expanded are exactly its unvisited
    children: the test of line 251 asks for an entry that is its own parent,
    so the parent of the frame is never pushed.  After the single update
    (sensor, world) the frame "sensor" has the parent "world" and the two are
    connected, yet expanding "sensor" pushes nothing and the search from
    "sensor" to "world" returns the empty path. *)
Theorem search_never_follows_parent :
  (∀ batches visited frame path,
     push_neighbours (run_updates batches) ({[frame]} ∪ visited) frame path =
     child_items (run_updates batches) ({[frame]} ∪ visited) frame path) ∧
  parent_edge sensor_tree "world" "sensor" ∧
  connected sensor_tree "sensor" "world" ∧
  push_neighbours sensor_tree {["sensor"]} "sensor" ["sensor"] = [] ∧
  findTransformPath sensor_tree "sensor" "world" = [].
Proof.
  assert (Hedge : parent_edge sensor_tree "world" "sensor").
  { eexists. split; reflexivity. }
  split; [|split; [done|split; [|split]]].
  - intros. apply push_neighbours_child_items.
    intros k n. apply run_updates_entries_match.
  - apply rtc_once. by right.
  - unfold sensor_tree. rewrite single_update_tree by done.
    rewrite !push_neighbours_cons, push_neighbours_nil. unfold visit_entry.
    cbn [child_node placeholder_node parent_frame_id node_frame_id].
    by rewrite !bool_decide_eq_false_2 by naive_solver.
  - apply (single_update_path_up sensor_update). done.
Qed.

(** C3.  For every frame and every map, [computeTransform(f, f)] is the
    identity transform and [findTransformPath(f, f)] is [[f]]; neither
    depends on the map, and the search returns before its loop, whatever the
    fuel. *)
Theorem same_frame_is_identity ops tree f fuel :
  computeTransform ops tree f f = Some identity_transform ∧
  findTransformPath tree f f = [f] ∧
  findTransformPath_fuel fuel tree f f = Some [f].
Proof.
  unfold computeTransform, findTransformPath, findTransformPath_fuel.
  by rewrite !decide_True.
Qed.

(** C4.  [updateTFTree] runs the entries of all messages of the batch in
    input order, and each entry stores the child node with the entry's
    parent, transform and timestamp; a lookup of the entry's parent frame
    afterwards gives the node that was there, or the root placeholder
    (no parent, identity transform, the entry's timestamp) when there was
    none; every other key is untouched.  The update is a total function:
    no entry is rejected. *)
Theorem updateTFTree_upserts_in_order prev msgs :
  updateTFTree prev msgs = foldl apply_transform prev (batch_entries msgs) ∧
  ∀ tree t k,
    map_get (apply_transform tree t) k =
    if decide (k = child_frame_id t) then
      Some {| node_frame_id := child_frame_id t;
              parent_frame_id := Some (frame_id (header t));
              node_transform := transform t;
              timestamp := stamp_ns (header t) |}
    else if decide (k = frame_id (header t)) then
      match map_get tree k with
      | Some present => Some present
      | None =>
          Some {| node_frame_id := frame_id (header t);
                  parent_frame_id := None;
                  node_transform := identity_transform;
                  timestamp := stamp_ns (header t) |}
      end
    else map_get tree k.
Proof.
  split; [apply updateTFTree_entries|].
  intros tree t k. rewrite apply_transform_get.
  repeat case_decide; try done. by destruct (map_get tree k).
Qed.

(** C5.  When two distinct frames are not connected by parent pointers of
    the current map, read in either direction, [computeTransform] returns
    [null].  Frames that no update ever named are isolated, so the case of an
    unseen identifier is included. *)
Theorem unconnected_frames_unresolved ops tree sourceFrame targetFrame :
  sourceFrame ≠ targetFrame →
  ¬ connected tree sourceFrame targetFrame →
  computeTransform ops tree sourceFrame targetFrame = None.
Proof.
  intros _ Hnc.
  destruct (computeTransform ops tree sourceFrame targetFrame) as [t|] eqn:E; [|done].
  by apply computeTransform_Some_connected in E.
Qed.

Lemma sensor_tree_x_isolated : ¬ connected sensor_tree "x" "world".
Proof.
  assert (Hclosed : ∀ a b, connected sensor_tree a b → a = "x" → b = "x").
  { intros a b Hab. induction Hab as [|a b c Hstep _ IH]; [done|].
    intros ->. apply IH.
    destruct Hstep as [(n & Hn & Hp)|(n & Hn & Hp)].
    - unfold sensor_tree in Hn. rewrite single_update_tree in Hn by done.
      simpl in Hn. repeat case_decide; simplify_eq/=.
    - vm_compute in Hn. discriminate. }
  intros Hc. by specialize (Hclosed _ _ Hc eq_refl).
Qed.

Lemma unconnected_frames_unresolved_witness :
  "x" ≠ "world" ∧ ¬ connected sensor_tree "x" "world" ∧
  computeTransform Three.ops sensor_tree "x" "world" = None.
Proof.
  assert (Hne : "x" ≠ "world") by discriminate.
  split; [exact Hne|]. split; [exact sensor_tree_x_isolated|].
  exact (unconnected_frames_unresolved Three.ops sensor_tree "x" "world"
           Hne sensor_tree_x_isolated).
Defined.

(** The search on a map whose parent pointers form a cycle: both frames are
    expanded once and the loop ends with the queue empty. *)
Example cyclic_tree_search :
  parent_edge cyclic_tree "a" "b" ∧ parent_edge cyclic_tree "b" "a" ∧
  findTransformPath cyclic_tree "a" "b" = ["a"; "b"] ∧
  findTransformPath cyclic_tree "a" "elsewhere" = [] ∧
  bfs_expanded (bfs_fuel cyclic_tree) cyclic_tree "elsewhere" ∅ [("a", ["a"])]
    = ["a"; "b"].
Proof.
  split_and!; try (vm_compute; reflexivity); eexists; split; reflexivity.
Qed.

(** C6.  On every map, cyclic or not, the search terminates: with
    [bfs_fuel tree] units of fuel or more the loop returns, always with the
    same path, and no frame is expanded (added to [visited]) twice. *)
Theorem findTransformPath_terminates tree sourceFrame targetFrame extra :
  findTransformPath_fuel (bfs_fuel tree + extra) tree sourceFrame targetFrame =
    Some (findTransformPath tree sourceFrame targetFrame) ∧
  NoDup (bfs_expanded (bfs_fuel tree + extra) tree targetFrame ∅
           [(sourceFrame, [sourceFrame])]).
Proof.
  split; [apply findTransformPath_more_fuel|apply bfs_expanded_fresh].
Qed.

(** C7.  Applying an update entry twice, in one message, in two messages of
    one batch or in two successive batches, gives the same map as applying it
    once, and the child is then stored with the entry's transform and
    timestamp. *)
Theorem update_twice_same prev t :
  updateTFTree prev (one_batch [t; t]) = updateTFTree prev (one_batch [t]) ∧
  updateTFTree prev (one_batch [t] ++ one_batch [t]) =
    updateTFTree prev (one_batch [t]) ∧
  updateTFTree (updateTFTree prev (one_batch [t])) (one_batch [t]) =
    updateTFTree prev (one_batch [t]) ∧
  map_get (updateTFTree prev (one_batch [t])) (child_frame_id t) =
    Some {| node_frame_id := child_frame_id t;
            parent_frame_id := Some (frame_id (header t));
            node_transform := transform t;
            timestamp := stamp_ns (header t) |}.
Proof.
  unfold updateTFTree, one_batch. cbn [app foldl message transforms].
  rewrite apply_transform_twice, apply_transform_get, decide_True by done.
  done.
Qed.

(** C8.  A frame that is a key of the map before [updateTFTree] is a key of
    the map it returns. *)
Theorem updateTFTree_keeps_keys prev msgs k :
  map_has prev k = true → map_has (updateTFTree prev msgs) k = true.
Proof. rewrite updateTFTree_entries. apply foldl_apply_transform_has. Qed.

Lemma updateTFTree_keeps_keys_witness :
  map_has sensor_tree "world" = true ∧
  map_has (updateTFTree sensor_tree
             (one_batch [mk_update "tool" "sensor" (tx 0 0 1) 1 0])) "world" = true.
Proof.
  assert (Hk : map_has sensor_tree "world" = true) by reflexivity.
  split; [exact Hk|].
  exact (updateTFTree_keeps_keys sensor_tree _ "world" Hk).
Defined.

(** C9.  On every map a session can build, the path returned by the search
    is a chain of descents: for each neighbouring pair (from, to) the node
    stored under [to] has [parent_frame_id = from], so the composer resolves
    every edge of it by the direct lookup of line 290 and never by the
    inverse lookup. *)
Theorem resolver_paths_descend batches sourceFrame targetFrame :
  let tree := run_updates batches in
  let path := findTransformPath tree sourceFrame targetFrame in
  consecutive (parent_edge tree) path ∧
  consecutive (λ a b, ∃ T, edge_transform tree a b = Some (T, false)) path.
Proof.
  intros tree path.
  assert (Hc : consecutive (parent_edge tree) path).
  { destruct (findTransformPath_item_ok tree sourceFrame targetFrame)
      as [Hnil|(_ & _ & Hc)].
    - subst path. by rewrite Hnil.
    - eapply consecutive_impl; [|exact Hc].
      intros a b. apply bfs_edge_parent_edge;
        [apply run_updates_NoDup|apply keys_match_run]. }
  split; [done|].
  eapply consecutive_impl; [|exact Hc]. apply edge_transform_forward.
Qed.

(** C10.  In the map reached by any sequence of [updateTFTree] calls from the
    empty map, every node is stored under its own [frame_id], and a node whose
    frame no entry so far named as a child has no parent and the identity
    transform. *)
Theorem session_nodes_well_formed batches k n :
  map_get (run_updates batches) k = Some n →
  node_frame_id n = k ∧
  (k ∉ child_frame_id <$> session_entries batches →
   parent_frame_id n = None ∧ node_transform n = identity_transform).
Proof.
  intros Hn. split; [by apply (keys_match_run batches)|].
  rewrite run_updates_entries in Hn. by apply (roots_bare_foldl _ _ _ Hn).
Qed.

Lemma session_nodes_well_formed_witness :
  map_get (run_updates [one_batch [sensor_update]]) "world" =
    Some (placeholder_node sensor_update) ∧
  ("world" ∉ child_frame_id <$> session_entries [one_batch [sensor_update]]) ∧
  node_frame_id (placeholder_node sensor_update) = "world" ∧
  parent_frame_id (placeholder_node sensor_update) = None ∧
  node_transform (placeholder_node sensor_update) = identity_transform.
Proof.
  assert (Hn : map_get (run_updates [one_batch [sensor_update]]) "world" =
               Some (placeholder_node sensor_update)) by reflexivity.
  assert (Hk : "world" ∉ child_frame_id <$> session_entries [one_batch [sensor_update]]).
  { intros Hin. apply list_elem_of_singleton in Hin. discriminate Hin. }
  split; [exact Hn|]. split; [exact Hk|].
  destruct (session_nodes_well_formed [one_batch [sensor_update]] "world" _ Hn)
    as [Hid Hroot].
  split; [exact Hid|]. exact (Hroot Hk).
Defined.

(** * Further properties *)

(** ** More on [updateTFTree] *)

Lemma updateTFTree_app prev msgs1 msgs2 :
  updateTFTree prev (msgs1 ++ msgs2) = updateTFTree (updateTFTree prev msgs1) msgs2.
Proof. unfold updateTFTree. by rewrite foldl_app. Qed.

Lemma apply_transform_keys tree t :
  ∃ added, map_keys (apply_transform tree t) = map_keys tree ++ added ∧
           length added ≤ 2.
Proof.
  rewrite apply_transform_unfold. cbn zeta.
  destruct (map_has (map_set tree _ _) (frame_id (header t))) eqn:Hp.
  - rewrite map_keys_set. destruct (map_has tree _).
    + exists []. split; [by rewrite app_nil_r|simpl; lia].
    + eexists [_]. split; [done|simpl; lia].
  - rewrite !map_keys_set, Hp. destruct (map_has tree _).
    + eexists [_]. split; [done|simpl; lia].
    + eexists [_; _]. rewrite <- app_assoc. split; [done|simpl; lia].
Qed.

Lemma foldl_apply_transform_keys tree ts :
  ∃ added, map_keys (foldl apply_transform tree ts) = map_keys tree ++ added ∧
           length added ≤ 2 * length ts.
Proof.
  revert tree. induction ts as [|t ts IH]; intros tree.
  - exists []. split; [by rewrite app_nil_r|simpl; lia].
  - destruct (apply_transform_keys tree t) as (a1 & E1 & L1).
    destruct (IH (apply_transform tree t)) as (a2 & E2 & L2).
    exists (a1 ++ a2). cbn [foldl]. rewrite E2, E1, <- app_assoc.
    split; [done|]. rewrite length_app. simpl. lia.
Qed.

Lemma map_has_true (m : TFTree) k : map_has m k = true ↔ k ∈ map_keys m.
Proof.
  unfold map_has, map_keys. induction m as [|[k0 v0] m IH]; simpl.
  - split; [done|by intros ?%elem_of_nil].
  - rewrite elem_of_cons. case_decide; [naive_solver|].
    rewrite IH. naive_solver.
Qed.

Lemma apply_transform_has_iff tree t k :
  map_has (apply_transform tree t) k = true ↔
  k = child_frame_id t ∨ k = parent_frame t ∨ map_has tree k = true.
Proof.
  unfold map_has, parent_frame. rewrite apply_transform_get.
  repeat case_decide; destruct (map_get tree k); naive_solver.
Qed.

Lemma foldl_apply_transform_has_iff tree ts k :
  map_has (foldl apply_transform tree ts) k = true ↔
  k ∈ child_frame_id <$> ts ∨ k ∈ parent_frame <$> ts ∨ map_has tree k = true.
Proof.
  revert tree. induction ts as [|t ts IH]; intros tree; cbn [foldl].
  - rewrite !fmap_nil. split; [by auto|]. by intros [?%elem_of_nil|[?%elem_of_nil|?]].
  - rewrite IH, apply_transform_has_iff, !fmap_cons, !elem_of_cons. naive_solver.
Qed.

Lemma foldl_apply_transform_untouched tree ts k :
  k ∉ child_frame_id <$> ts →
  is_Some (map_get tree k) →
  map_get (foldl apply_transform tree ts) k = map_get tree k.
Proof.
  revert tree. induction ts as [|t ts IH]; intros tree Hk Hs; cbn [foldl]; [done|].
  rewrite fmap_cons, not_elem_of_cons in Hk. destruct Hk as [Hne Hk].
  assert (Hstep : map_get (apply_transform tree t) k = map_get tree k).
  { rewrite apply_transform_get, decide_False by done.
    case_decide; [|done]. by destruct Hs as [n ->]. }
  rewrite IH; [done..|]. by rewrite Hstep.
Qed.

Lemma foldl_apply_transform_last_write tree l1 t l2 :
  child_frame_id t ∉ child_frame_id <$> l2 →
  map_get (foldl apply_transform tree (l1 ++ t :: l2)) (child_frame_id t) =
  Some (child_node t).
Proof.
  intros Hk. rewrite foldl_app. cbn [foldl].
  assert (Hc : map_get (apply_transform (foldl apply_transform tree l1) t)
                 (child_frame_id t) = Some (child_node t)).
  { rewrite apply_transform_get. by rewrite decide_True. }
  rewrite foldl_apply_transform_untouched; [done..|]. by rewrite Hc.
Qed.

Lemma parents_present_apply tree t :
  parents_present tree → parents_present (apply_transform tree t).
Proof.
  intros Hpp k n p. rewrite apply_transform_get.
  intros Hn Hp. apply apply_transform_has_iff. unfold parent_frame.
  repeat case_decide; simplify_eq/=.
  - auto.
  - destruct (map_get tree (frame_id (header t))) eqn:E; simplify_eq/=.
    right; right. by eapply Hpp.
  - right; right. by eapply Hpp.
Qed.

Lemma parents_present_foldl tree ts :
  parents_present tree → parents_present (foldl apply_transform tree ts).
Proof.
  revert tree. induction ts as [|t ts IH]; intros tree Hpp; cbn [foldl]; [done|].
  by apply IH, parents_present_apply.
Qed.

(** The parent pointers of a session map come from entries of the session. *)
Lemma foldl_apply_transform_parent ts k n p :
  map_get (foldl apply_transform [] ts) k = Some n →
  parent_frame_id n = Some p →
  k ∈ child_frame_id <$> ts ∧ p ∈ parent_frame <$> ts.
Proof.
  revert k n p. induction ts as [|t ts IH] using rev_ind; intros k n p; [done|].
  rewrite foldl_app. cbn [foldl]. rewrite apply_transform_get, !fmap_app, !elem_of_app.
  cbn [fmap list_fmap]. rewrite !list_elem_of_singleton.
  repeat case_decide; intros Hn Hp; simplify_eq/=.
  - unfold parent_frame. auto.
  - destruct (map_get _ (frame_id (header t))) eqn:E; simplify_eq/=.
    destruct (IH _ _ _ E Hp). auto.
  - destruct (IH _ _ _ Hn Hp). auto.
Qed.

(** X1.  A batch can be split anywhere: applying [msgs1 ++ msgs2] is applying
    [msgs1] and then [msgs2], and the empty batch changes nothing. *)
Theorem updateTFTree_split_batch prev msgs1 msgs2 :
  updateTFTree prev (msgs1 ++ msgs2) = updateTFTree (updateTFTree prev msgs1) msgs2 ∧
  updateTFTree prev [] = prev.
Proof. split; [apply updateTFTree_app|done]. Qed.

(** X2.  [updateTFTree] keeps the iteration order of the map: the keys of the
    previous map, in their order, are a prefix of the keys of the new map, and
    each entry of the batch appends at most two keys. *)
Theorem updateTFTree_appends_keys prev msgs :
  ∃ added,
    map_keys (updateTFTree prev msgs) = map_keys prev ++ added ∧
    length added ≤ 2 * length (batch_entries msgs).
Proof. rewrite updateTFTree_entries. apply foldl_apply_transform_keys. Qed.

(** X3.  After a session every parent pointer names a key of the map: the
    store never holds a dangling parent. *)
Theorem session_parents_present batches k n p :
  map_get (run_updates batches) k = Some n →
  parent_frame_id n = Some p →
  map_has (run_updates batches) p = true.
Proof.
  rewrite run_updates_entries. apply parents_present_foldl. by intros ???.
Qed.

Lemma session_parents_present_witness :
  map_get (run_updates [one_batch [sensor_update]]) "sensor" =
    Some (child_node sensor_update) ∧
  parent_frame_id (child_node sensor_update) = Some "world" ∧
  map_has (run_updates [one_batch [sensor_update]]) "world" = true.
Proof.
  assert (Hn : map_get (run_updates [one_batch [sensor_update]]) "sensor" =
               Some (child_node sensor_update)) by reflexivity.
  assert (Hp : parent_frame_id (child_node sensor_update) = Some "world")
    by reflexivity.
  split; [exact Hn|]. split; [exact Hp|].
  exact (session_parents_present _ "sensor" _ "world" Hn Hp).
Defined.

(** X4.  Last write wins: when an entry of the batch is the last one that
    names its child frame, the child is stored afterwards with that entry's
    parent, transform and timestamp, whatever the map held and whatever the
    timestamps are. *)
Theorem updateTFTree_last_write_wins prev msgs l1 t l2 :
  batch_entries msgs = l1 ++ t :: l2 →
  child_frame_id t ∉ child_frame_id <$> l2 →
  map_get (updateTFTree prev msgs) (child_frame_id t) =
  Some {| node_frame_id := child_frame_id t;
          parent_frame_id := Some (frame_id (header t));
          node_transform := transform t;
          timestamp := stamp_ns (header t) |}.
Proof.
  intros E Hk. rewrite updateTFTree_entries, E.
  by apply foldl_apply_transform_last_write.
Qed.

(** X5.  A node that the batch does not name as a child is left as it was,
    also when the batch names its frame as a parent: its transform and its
    timestamp are not refreshed. *)
Theorem updateTFTree_untouched prev msgs k n :
  map_get prev k = Some n →
  k ∉ child_frame_id <$> batch_entries msgs →
  map_get (updateTFTree prev msgs) k = Some n.
Proof.
  intros Hn Hk. rewrite updateTFTree_entries, <- Hn.
  apply foldl_apply_transform_untouched; [done|]. by rewrite Hn.
Qed.

(** X6.  The keys of a session map are exactly the frames that some entry of
    the session names as its child or as its parent. *)
Theorem session_keys batches k :
  map_has (run_updates batches) k = true ↔
  k ∈ child_frame_id <$> session_entries batches ∨
  k ∈ parent_frame <$> session_entries batches.
Proof.
  rewrite run_updates_entries, foldl_apply_transform_has_iff.
  unfold map_has. simpl. naive_solver.
Qed.

(** ** More on [findTransformPath] *)

Lemma bfs_loop_NoDup tree targetFrame fuel visited queue path :
  (∀ item, item ∈ queue → item_simple visited item) →
  bfs_loop fuel tree targetFrame visited queue = Some path →
  NoDup path.
Proof.
  revert visited queue.
  induction fuel as [|fuel IH]; intros visited queue Hq; [done|]. simpl.
  destruct queue as [|[frame p] queue]; [intros; simplify_eq; constructor|].
  destruct (Hq (frame, p)) as [Hnd Hin]; [by left|]. simpl in *.
  case_decide; [by intros; simplify_eq|].
  case_decide.
  - apply IH. intros item ?. apply Hq. by right.
  - apply IH. intros item [Hitem|Hitem]%elem_of_app.
    + destruct (Hq item) as [? Hx]; [by right|]. split; [done|].
      intros x [?|?]%Hx; [left; set_solver|by right].
    + apply elem_of_push_neighbours in Hitem as (k & n & _ & -> & Hk & _).
      assert (Hp : ∀ x, x ∈ p → x ∈ ({[frame]} ∪ visited : gset string)).
      { intros x [?| ->]%Hin; set_solver. }
      split; simpl.
      * apply NoDup_app. split; [done|]. split; [|apply NoDup_singleton].
        intros x Hx%Hp ->%list_elem_of_singleton. done.
      * intros x [?%Hp| ->%list_elem_of_singleton]%elem_of_app; auto.
Qed.

Lemma findTransformPath_NoDup tree sourceFrame targetFrame :
  NoDup (findTransformPath tree sourceFrame targetFrame).
Proof.
  unfold findTransformPath.
  destruct (findTransformPath_fuel _ _ _ _) as [path|] eqn:E; [|constructor].
  simpl. revert E. unfold findTransformPath_fuel.
  case_decide; [intros; simplify_eq; apply NoDup_singleton|].
  apply bfs_loop_NoDup. intros item ->%list_elem_of_singleton.
  split; simpl; [apply NoDup_singleton|].
  intros x ->%list_elem_of_singleton. by right.
Qed.

Lemma consecutive_snoc_inv {A} (R : A → A → Prop) l a x :
  consecutive R (l ++ [a; x]) → consecutive R (l ++ [a]) ∧ R a x.
Proof.
  induction l as [|y [|z l] IH]; simpl.
  - tauto.
  - intros (? & ? & _). tauto.
  - intros [? Hc]. destruct (IH Hc). tauto.
Qed.

Lemma consecutive_last_edge {A} (R : A → A → Prop) l s t :
  consecutive R l → head l = Some s → last l = Some t → s ≠ t → ∃ x, R x t.
Proof.
  intros Hc Hh Hl Hne. apply last_Some in Hl as [l' ->].
  destruct l' as [|y l' _] using rev_ind; [by simplify_eq/=|].
  rewrite <- app_assoc in Hc. apply consecutive_snoc_inv in Hc as [_ ?]. eauto.
Qed.

Lemma parent_edge_functional tree a b x :
  parent_edge tree a x → parent_edge tree b x → a = b.
Proof. intros (n & Hn & Hp) (m & Hm & Hq). congruence. Qed.

Lemma descent_chain_suffix tree l1 l2 x :
  consecutive (parent_edge tree) (l1 ++ [x]) →
  consecutive (parent_edge tree) (l2 ++ [x]) →
  l1 `suffix_of` l2 ∨ l2 `suffix_of` l1.
Proof.
  revert l2 x. induction l1 as [|a l1 IH] using rev_ind; intros l2 x H1 H2.
  { left. apply suffix_nil. }
  destruct l2 as [|b l2 _] using rev_ind.
  { right. apply suffix_nil. }
  rewrite <- app_assoc in H1, H2.
  apply consecutive_snoc_inv in H1 as [H1 Ha], H2 as [H2 Hb].
  assert (a = b) as <- by by eapply parent_edge_functional.
  destruct (IH l2 a H1 H2) as [Hs|Hs]; [left|right]; by apply suffix_app.
Qed.

Lemma descent_chain_unique tree s t l1 l2 :
  head l1 = Some s → last l1 = Some t → consecutive (parent_edge tree) l1 →
  head l2 = Some s → last l2 = Some t → consecutive (parent_edge tree) l2 →
  NoDup l1 → NoDup l2 → l1 = l2.
Proof.
  assert (Hsuffix : ∀ l1 l2 : list string,
            head l1 = Some s → head l2 = Some s → NoDup l2 →
            l1 `suffix_of` l2 → l1 = l2).
  { intros k1 k2 Hh1 Hh2 Hnd [k ->].
    destruct k as [|y k]; [done|]. simpl in Hh2. simplify_eq.
    apply NoDup_cons in Hnd as [Hs _]. exfalso. apply Hs.
    apply elem_of_app. right. destruct k1; simplify_eq/=. by left. }
  intros Hh1 Hl1 Hc1 Hh2 Hl2 Hc2 Hn1 Hn2.
  pose proof Hl1 as [k1 E1]%last_Some. pose proof Hl2 as [k2 E2]%last_Some.
  subst l1 l2.
  destruct (descent_chain_suffix tree k1 k2 t Hc1 Hc2) as [Hs|Hs].
  - apply Hsuffix; [done..|]. by apply suffix_app.
  - symmetry. apply Hsuffix; [done..|]. by apply suffix_app.
Qed.

Lemma session_path_chain batches sourceFrame targetFrame :
  consecutive (parent_edge (run_updates batches))
    (findTransformPath (run_updates batches) sourceFrame targetFrame).
Proof.
  destruct (findTransformPath_item_ok (run_updates batches) sourceFrame targetFrame)
    as [Hnil|(_ & _ & Hc)]; [by rewrite Hnil|].
  eapply consecutive_impl; [|exact Hc].
  intros a b. apply bfs_edge_parent_edge;
    [apply run_updates_NoDup|apply keys_match_run].
Qed.

Lemma session_path_unique batches s t l :
  head l = Some s → last l = Some t →
  consecutive (parent_edge (run_updates batches)) l → NoDup l →
  findTransformPath (run_updates batches) s t = l.
Proof.
  intros Hh Hl Hc Hnd.
  assert (Hrtc : rtc (parent_edge (run_updates batches)) s t)
    by by eapply consecutive_rtc.
  apply findTransformPath_reaches_descendants in Hrtc.
  destruct (findTransformPath_item_ok (run_updates batches) s t)
    as [?|(Hh' & Hl' & _)]; [done|].
  eapply descent_chain_unique; eauto using session_path_chain, findTransformPath_NoDup.
Qed.

Lemma parent_edge_ext tree1 tree2 a b :
  (∀ k, map_get tree1 k = map_get tree2 k) →
  parent_edge tree1 a b → parent_edge tree2 a b.
Proof. intros Hext (n & Hn & Hp). exists n. by rewrite <- Hext. Qed.

Lemma edge_transform_ext tree1 tree2 a b :
  (∀ k, map_get tree1 k = map_get tree2 k) →
  edge_transform tree1 a b = edge_transform tree2 a b.
Proof. intros Hext. unfold edge_transform. by rewrite !Hext. Qed.

Lemma walk_path_ext ops tree1 tree2 acc path :
  (∀ k, map_get tree1 k = map_get tree2 k) →
  walk_path ops tree1 acc path = walk_path ops tree2 acc path.
Proof.
  intros Hext. revert acc.
  induction path as [|a [|b path] IH]; intros acc; [done..|].
  cbn [walk_path]. rewrite (edge_transform_ext tree1 tree2) by done.
  destruct (edge_transform tree2 a b) as [[t inv]|]; [|done]. apply IH.
Qed.

Lemma session_path_ext batches1 batches2 s t :
  (∀ k, map_get (run_updates batches1) k = map_get (run_updates batches2) k) →
  findTransformPath (run_updates batches1) s t =
  findTransformPath (run_updates batches2) s t.
Proof.
  intros Hext.
  assert (Hedge : ∀ b1 b2, (∀ k, map_get (run_updates b1) k = map_get (run_updates b2) k) →
            findTransformPath (run_updates b1) s t ≠ [] →
            findTransformPath (run_updates b2) s t = findTransformPath (run_updates b1) s t).
  { intros b1 b2 He Hne.
    destruct (findTransformPath_item_ok (run_updates b1) s t)
      as [?|(Hh & Hl & _)]; [done|].
    apply session_path_unique; [done..| |apply findTransformPath_NoDup].
    eapply consecutive_impl; [|apply session_path_chain].
    intros a b. by apply parent_edge_ext. }
  destruct (decide (findTransformPath (run_updates batches1) s t = [])) as [E1|N1].
  - destruct (decide (findTransformPath (run_updates batches2) s t = [])) as [E2|N2].
    + by rewrite E1, E2.
    + apply Hedge; [|done]. intros k. symmetry. apply Hext.
  - symmetry. by apply Hedge.
Qed.

Lemma edge_transform_of_node tree a b n :
  map_get tree b = Some n → parent_frame_id n = Some a →
  edge_transform tree a b = Some (node_transform n, false).
Proof. intros Hn Hp. unfold edge_transform. by rewrite Hn, decide_True. Qed.

(** X7.  On every map, cyclic or not, the path returned by the search repeats
    no frame, and when it is not empty it starts at the source and ends at
    the target. *)
Theorem findTransformPath_simple_path tree sourceFrame targetFrame :
  NoDup (findTransformPath tree sourceFrame targetFrame) ∧
  (findTransformPath tree sourceFrame targetFrame = [] ∨
   (head (findTransformPath tree sourceFrame targetFrame) = Some sourceFrame ∧
    last (findTransformPath tree sourceFrame targetFrame) = Some targetFrame)).
Proof.
  split; [apply findTransformPath_NoDup|].
  destruct (findTransformPath_item_ok tree sourceFrame targetFrame)
    as [?|(? & ? & _)]; auto.
Qed.

(** X8.  On a session map the search returns the chain of ancestors: any list
    of distinct frames that leads from the source to the target, each frame
    the stored parent of the next, is the path returned. *)
Theorem findTransformPath_is_ancestor_chain batches sourceFrame targetFrame l :
  head l = Some sourceFrame → last l = Some targetFrame →
  consecutive (parent_edge (run_updates batches)) l → NoDup l →
  findTransformPath (run_updates batches) sourceFrame targetFrame = l.
Proof. apply session_path_unique. Qed.

(** X9.  The search, and with it the composer, depends on the nodes stored
    and not on the order in which the updates arrived: two sessions whose maps
    hold the same node under every key give the same path and the same
    transform. *)
Theorem resolution_ignores_arrival_order ops batches1 batches2 sourceFrame targetFrame :
  (∀ k, map_get (run_updates batches1) k = map_get (run_updates batches2) k) →
  findTransformPath (run_updates batches1) sourceFrame targetFrame =
    findTransformPath (run_updates batches2) sourceFrame targetFrame ∧
  computeTransform ops (run_updates batches1) sourceFrame targetFrame =
    computeTransform ops (run_updates batches2) sourceFrame targetFrame.
Proof.
  intros Hext.
  pose proof (session_path_ext batches1 batches2 sourceFrame targetFrame Hext) as E.
  split; [done|]. rewrite !computeTransform_unfold, E.
  by rewrite (walk_path_ext ops _ (run_updates batches2)).
Qed.

(** X10.  A target frame that is not a key of the map is never reached from
    another frame, also when nodes of the map name it as their parent: the
    path is empty and [computeTransform] returns [null]. *)
Theorem absent_target_unresolved ops tree sourceFrame targetFrame :
  sourceFrame ≠ targetFrame →
  targetFrame ∉ map_keys tree →
  findTransformPath tree sourceFrame targetFrame = [] ∧
  computeTransform ops tree sourceFrame targetFrame = None.
Proof.
  intros Hne Hkey.
  assert (E : findTransformPath tree sourceFrame targetFrame = []).
  { destruct (findTransformPath_item_ok tree sourceFrame targetFrame)
      as [?|(Hh & Hl & Hc)]; [done|]. simpl in *.
    destruct (consecutive_last_edge _ _ _ _ Hc Hh Hl Hne) as (x & _ & n & Hin & _).
    exfalso. apply Hkey. unfold map_keys. apply list_elem_of_fmap.
    by exists (targetFrame, n). }
  split; [done|]. rewrite computeTransform_unfold, E, decide_False by done.
  by rewrite decide_True by (simpl; lia).
Qed.

(** X11.  On a session map [computeTransform] returns a transform exactly
    when the target is the source or one of its descendants; a target above
    the source, or in another tree, gives [null]. *)
Theorem resolution_iff_descendant ops batches sourceFrame targetFrame :
  is_Some (computeTransform ops (run_updates batches) sourceFrame targetFrame) ↔
  rtc (parent_edge (run_updates batches)) sourceFrame targetFrame.
Proof. apply computeTransform_resolves_descendants. Qed.

(** ** Composition along a chain *)

Lemma session_two_edges ops batches a b c n1 n2 :
  map_get (run_updates batches) b = Some n1 → parent_frame_id n1 = Some a →
  map_get (run_updates batches) c = Some n2 → parent_frame_id n2 = Some b →
  NoDup [a; b; c] →
  computeTransform ops (run_updates batches) a c =
  Some (decomposed ops
          (m4_multiply ops
             (m4_multiply ops (m4_identity ops)
                (edge_matrix ops (node_transform n1) false))
             (edge_matrix ops (node_transform n2) false))).
Proof.
  intros Hb Hpb Hc Hpc Hnd.
  assert (Hpath : findTransformPath (run_updates batches) a c = [a; b; c]).
  { apply session_path_unique; [done..| |done].
    split; [by exists n1|]. split; [by exists n2|done]. }
  assert (Hac : a ≠ c).
  { apply NoDup_cons in Hnd as [Ha _]. intros ->. apply Ha. set_solver. }
  rewrite computeTransform_unfold, Hpath, decide_False by done.
  rewrite decide_False by (simpl; lia). cbn [walk_path].
  rewrite (edge_transform_of_node _ a b n1), (edge_transform_of_node _ b c n2) by done.
  done.
Qed.

Lemma two_updates_tree t1 t2 :
  run_updates [one_batch [t1; t2]] = apply_transform (apply_transform [] t1) t2.
Proof. reflexivity. Qed.

(** X12.  Two updates that form a chain a -> b -> c of three distinct frames,
    applied to the empty map in either order, resolve a-to-c to the product
    [identity * compose(T1) * compose(T2)] read back by [decompose], with no
    inversion; c-to-a is not resolved. *)
Theorem chain_resolution ops t1 t2 :
  parent_frame t2 = child_frame_id t1 →
  parent_frame t1 ≠ child_frame_id t1 →
  child_frame_id t1 ≠ child_frame_id t2 →
  parent_frame t1 ≠ child_frame_id t2 →
  let product :=
    m4_multiply ops
      (m4_multiply ops (m4_identity ops) (edge_matrix ops (transform t1) false))
      (edge_matrix ops (transform t2) false) in
  computeTransform ops (updateTFTree [] (one_batch [t1; t2]))
    (parent_frame t1) (child_frame_id t2) = Some (decomposed ops product) ∧
  computeTransform ops (updateTFTree [] (one_batch [t2; t1]))
    (parent_frame t1) (child_frame_id t2) = Some (decomposed ops product) ∧
  computeTransform ops (updateTFTree [] (one_batch [t1; t2]))
    (child_frame_id t2) (parent_frame t1) = None.
Proof.
  intros Hbc Hab Hbc' Hac product. subst product. unfold parent_frame in *.
  assert (Hnd : NoDup [frame_id (header t1); child_frame_id t1; child_frame_id t2]).
  { repeat constructor; set_solver. }
  split; [|split].
  - change (updateTFTree [] (one_batch [t1; t2])) with (run_updates [one_batch [t1; t2]]).
    apply (session_two_edges ops _ _ (child_frame_id t1) _ (child_node t1) (child_node t2));
      [|done| |by simpl; f_equal|done];
      rewrite two_updates_tree, !apply_transform_get;
      repeat case_decide; simplify_eq/=; done.
  - change (updateTFTree [] (one_batch [t2; t1])) with (run_updates [one_batch [t2; t1]]).
    apply (session_two_edges ops _ _ (child_frame_id t1) _ (child_node t1) (child_node t2));
      [|done| |by simpl; f_equal|done];
      rewrite two_updates_tree, !apply_transform_get;
      repeat case_decide; simplify_eq/=; done.
  - change (updateTFTree [] (one_batch [t1; t2])) with (run_updates [one_batch [t1; t2]]).
    destruct (computeTransform ops _ _ _) as [r|] eqn:E; [|done]. exfalso.
    assert (Hs : is_Some (computeTransform ops (run_updates [one_batch [t1; t2]])
                            (child_frame_id t2) (frame_id (header t1)))) by by eexists.
    apply computeTransform_resolves_descendants in Hs.
    apply rtc_inv_r in Hs as [?|(y & _ & n & Hn & Hp)]; [by simplify_eq|].
    rewrite two_updates_tree, !apply_transform_get in Hn.
    repeat case_decide; simplify_eq/=.
Qed.

Lemma chain_resolution_witness :
  parent_frame chain_bc = child_frame_id chain_ab ∧
  parent_frame chain_ab ≠ child_frame_id chain_ab ∧
  child_frame_id chain_ab ≠ child_frame_id chain_bc ∧
  parent_frame chain_ab ≠ child_frame_id chain_bc ∧
  computeTransform Three.ops chain_tree "a" "c" = Some (tx 1 1 0) ∧
  computeTransform Three.ops (updateTFTree [] (one_batch [chain_bc; chain_ab])) "a" "c"
    = Some (tx 1 1 0) ∧
  computeTransform Three.ops chain_tree "c" "a" = None.
Proof.
  assert (H1 : parent_frame chain_bc = child_frame_id chain_ab) by reflexivity.
  assert (H2 : parent_frame chain_ab ≠ child_frame_id chain_ab) by discriminate.
  assert (H3 : child_frame_id chain_ab ≠ child_frame_id chain_bc) by discriminate.
  assert (H4 : parent_frame chain_ab ≠ child_frame_id chain_bc) by discriminate.
  split; [exact H1|]. split; [exact H2|]. split; [exact H3|]. split; [exact H4|].
  exact (chain_resolution Three.ops chain_ab chain_bc H1 H2 H3 H4).
Defined.

(** ** availableFrames *)

Lemma truthy_true s : truthy s = true ↔ s ≠ "".
Proof. by destruct s. Qed.

Lemma elem_of_add_node_frames frames entry x :
  x ∈ add_node_frames frames entry ↔
  x ∈ frames ∨ x = node_frame_id entry.2 ∨
  (parent_frame_id entry.2 = Some x ∧ x ≠ "").
Proof.
  unfold add_node_frames. destruct (parent_frame_id entry.2) as [p|].
  - destruct (truthy p) eqn:Hp.
    + apply truthy_true in Hp. set_solver.
    + assert (p = "") as -> by by destruct p. set_solver.
  - set_solver.
Qed.

Lemma elem_of_foldl_add_node_frames tree frames x :
  x ∈ foldl add_node_frames frames tree ↔
  x ∈ frames ∨
  ∃ entry, entry ∈ tree ∧
    (x = node_frame_id entry.2 ∨ (parent_frame_id entry.2 = Some x ∧ x ≠ "")).
Proof.
  revert frames. induction tree as [|e tree IH]; intros frames; cbn [foldl].
  - split; [by left|]. intros [?|(? & []%elem_of_nil & _)]. done.
  - rewrite IH, elem_of_add_node_frames. split.
    + intros [[?|?]|(entry & ? & ?)]; [by left| |].
      * right. exists e. split; [by left|done].
      * right. exists entry. split; [by right|done].
    + intros [?|(entry & [->|?]%elem_of_cons & ?)]; [by left; left| |].
      * left. by right.
      * right. by exists entry.
Qed.

Lemma elem_of_frame_set tree fixedFrame sensorFrameId x :
  x ∈ frame_set tree fixedFrame sensorFrameId ↔
  x = fixedFrame ∨ (x = sensorFrameId ∧ sensorFrameId ≠ "") ∨
  ∃ entry, entry ∈ tree ∧
    (x = node_frame_id entry.2 ∨ (parent_frame_id entry.2 = Some x ∧ x ≠ "")).
Proof.
  unfold frame_set. destruct (truthy sensorFrameId) eqn:Hs.
  - apply truthy_true in Hs.
    rewrite elem_of_union, elem_of_singleton, elem_of_foldl_add_node_frames,
      elem_of_singleton. naive_solver.
  - assert (sensorFrameId = "") as -> by by destruct sensorFrameId.
    rewrite elem_of_foldl_add_node_frames, elem_of_singleton. naive_solver.
Qed.

Lemma elem_of_availableFrames tree fixedFrame sensorFrameId x :
  x ∈ availableFrames tree fixedFrame sensorFrameId ↔
  x ∈ frame_set tree fixedFrame sensorFrameId.
Proof.
  unfold availableFrames. by rewrite merge_sort_Permutation, elem_of_elements.
Qed.


(** X14.  After a session the available frames are exactly the fixed frame,
    the sensor frame when it is not the empty string, and the frames that the
    entries of the session name as a child or as a parent. *)
Theorem availableFrames_session batches fixedFrame sensorFrameId x :
  x ∈ availableFrames (run_updates batches) fixedFrame sensorFrameId ↔
  x = fixedFrame ∨ (x = sensorFrameId ∧ sensorFrameId ≠ "") ∨
  x ∈ child_frame_id <$> session_entries batches ∨
  x ∈ parent_frame <$> session_entries batches.
Proof.
  rewrite elem_of_availableFrames, elem_of_frame_set.
  assert (Hkeys : ∀ k, map_has (run_updates batches) k = true ↔
            k ∈ child_frame_id <$> session_entries batches ∨
            k ∈ parent_frame <$> session_entries batches).
  { intros k. rewrite run_updates_entries, foldl_apply_transform_has_iff.
    unfold map_has. simpl. naive_solver. }
  split.
  - intros [?|[?|([k n] & Hin & Hx)]]; [by left|by right; left|]. right; right.
    pose proof Hin as Hget.
    apply map_get_elem_of in Hget; [|apply run_updates_NoDup]. simpl in Hx.
    destruct Hx as [->|[Hp _]].
    + rewrite (keys_match_run batches k n Hget). apply Hkeys.
      unfold map_has. by rewrite Hget.
    + rewrite run_updates_entries in Hget.
      right. by eapply foldl_apply_transform_parent.
  - intros [?|[?|Hx]]; [by left|by right; left|]. right; right.
    apply Hkeys in Hx. unfold map_has in Hx.
    destruct (map_get (run_updates batches) x) as [n|] eqn:Hget; [|done].
    exists (x, n). split; [by apply map_get_Some_elem_of|]. left. simpl.
    symmetry. by apply (keys_match_run batches).
Qed.

(** ** updateSensorPosition *)

(** X15.  The sensor group keeps its pose when the sensor frame is the empty
    string or the fixed frame itself, and, on a session map, whenever the
    sensor frame is not a descendant of the fixed frame; the pose is not
    reset to the identity in any of these cases. *)
Theorem updateSensorPosition_keeps_pose ops batches sensorGroup sensorFrameId fixedFrame :
  sensorFrameId = "" ∨ sensorFrameId = fixedFrame ∨
    ¬ rtc (parent_edge (run_updates batches)) fixedFrame sensorFrameId →
  updateSensorPosition ops (run_updates batches) sensorGroup sensorFrameId fixedFrame
  = sensorGroup.
Proof.
  intros Hcase. unfold updateSensorPosition.
  destruct sensorGroup as [group|]; [|done].
  destruct (truthy sensorFrameId) eqn:Ht; simpl; [|done].
  case_bool_decide; [done|].
  destruct Hcase as [->|[?|Hnot]]; [done..|].
  destruct (computeTransform ops _ _ _) as [t|] eqn:E; [|done].
  exfalso. apply Hnot. apply (computeTransform_resolves_descendants ops). by eexists.
Qed.

(** X16.  On a session map, when the sensor frame is a non-empty descendant
    of the fixed frame other than the fixed frame itself, the sensor group
    takes the translation and rotation that [computeTransform] returns from
    the fixed frame to the sensor frame. *)
Theorem updateSensorPosition_moves_group ops batches group sensorFrameId fixedFrame :
  sensorFrameId ≠ "" → sensorFrameId ≠ fixedFrame →
  rtc (parent_edge (run_updates batches)) fixedFrame sensorFrameId →
  ∃ t, computeTransform ops (run_updates batches) fixedFrame sensorFrameId = Some t ∧
       updateSensorPosition ops (run_updates batches) (Some group)
         sensorFrameId fixedFrame = Some (pose_of t).
Proof.
  intros Hne Hfix Hrtc.
  apply (computeTransform_resolves_descendants ops) in Hrtc as [t Ht].
  exists t. split; [done|]. unfold updateSensorPosition.
  apply truthy_true in Hne. rewrite Hne, bool_decide_eq_false_2 by done. simpl.
  by rewrite Ht.
Qed.

(** ** Length of the path *)

Lemma consecutive_tail_keys tree l :
  consecutive (bfs_edge tree) l → ∀ x, x ∈ tail l → x ∈ map_keys tree.
Proof.
  induction l as [|a [|b l] IH]; [by intros _ x ?%elem_of_nil..|].
  intros [(_ & n & Hin & _) Hc] x. cbn [tail].
  intros [->|Hx]%elem_of_cons.
  - unfold map_keys. apply list_elem_of_fmap. by exists (b, n).
  - by apply (IH Hc).
Qed.

(** X17.  On every map the returned path has at most one frame more than the
    map has entries, so the composer multiplies at most as many matrices as
    there are entries. *)
Theorem findTransformPath_length tree sourceFrame targetFrame :
  length (findTransformPath tree sourceFrame targetFrame) ≤ length tree + 1.
Proof.
  pose proof (findTransformPath_NoDup tree sourceFrame targetFrame) as Hnd.
  destruct (findTransformPath_item_ok tree sourceFrame targetFrame)
    as [->|(_ & _ & Hc)]; [simpl; lia|]. simpl in Hc.
  pose proof (consecutive_tail_keys tree _ Hc) as Hkeys.
  destruct (findTransformPath tree sourceFrame targetFrame) as [|a l]; [simpl; lia|].
  apply NoDup_cons in Hnd as [_ Hnd]. cbn [tail] in Hkeys.
  pose proof (submseteq_length _ _ (NoDup_submseteq _ _ Hnd Hkeys)) as Hlen.
  unfold map_keys in Hlen. rewrite length_fmap in Hlen. simpl. lia.
Qed.

(** ** Instances of the statements with hypotheses *)

Lemma updateTFTree_last_write_wins_witness :
  batch_entries (one_batch [sensor_update; sensor_rebase]) =
    [sensor_update] ++ sensor_rebase :: [] ∧
  (child_frame_id sensor_rebase ∉ child_frame_id <$> @nil TransformStamped) ∧
  map_get (updateTFTree [] (one_batch [sensor_update; sensor_rebase])) "sensor" =
    Some {| node_frame_id := "sensor"; parent_frame_id := Some "base";
            node_transform := tx 0 0 2; timestamp := 50 |}.
Proof.
  assert (He : batch_entries (one_batch [sensor_update; sensor_rebase]) =
               [sensor_update] ++ sensor_rebase :: []) by reflexivity.
  assert (Hk : child_frame_id sensor_rebase ∉ child_frame_id <$> @nil TransformStamped)
    by apply not_elem_of_nil.
  split; [exact He|]. split; [exact Hk|].
  exact (updateTFTree_last_write_wins [] _ [sensor_update] sensor_rebase [] He Hk).
Defined.

Lemma updateTFTree_untouched_witness :
  map_get sensor_tree "sensor" = Some (child_node sensor_update) ∧
  ("sensor" ∉ child_frame_id <$> batch_entries (one_batch [tool_update])) ∧
  map_get (updateTFTree sensor_tree (one_batch [tool_update])) "sensor" =
    Some (child_node sensor_update).
Proof.
  assert (Hn : map_get sensor_tree "sensor" = Some (child_node sensor_update))
    by reflexivity.
  assert (Hk : "sensor" ∉ child_frame_id <$> batch_entries (one_batch [tool_update])).
  { intros Hin. apply list_elem_of_singleton in Hin. discriminate Hin. }
  split; [exact Hn|]. split; [exact Hk|].
  exact (updateTFTree_untouched sensor_tree _ "sensor" _ Hn Hk).
Defined.

Lemma chain_tree_edges :
  consecutive (parent_edge (run_updates [one_batch [chain_ab; chain_bc]]))
    ["a"; "b"; "c"].
Proof. split; [|split; [|done]]; eexists; split; reflexivity. Qed.

Lemma abc_NoDup : NoDup ["a"; "b"; "c"].
Proof. repeat (apply NoDup_cons; split; [set_solver|]). apply NoDup_nil_2. Qed.

Lemma findTransformPath_is_ancestor_chain_witness :
  head ["a"; "b"; "c"] = Some "a" ∧ last ["a"; "b"; "c"] = Some "c" ∧
  consecutive (parent_edge (run_updates [one_batch [chain_ab; chain_bc]]))
    ["a"; "b"; "c"] ∧
  NoDup ["a"; "b"; "c"] ∧
  findTransformPath (run_updates [one_batch [chain_ab; chain_bc]]) "a" "c" =
    ["a"; "b"; "c"].
Proof.
  split; [reflexivity|]. split; [reflexivity|].
  split; [exact chain_tree_edges|]. split; [exact abc_NoDup|].
  exact (findTransformPath_is_ancestor_chain [one_batch [chain_ab; chain_bc]]
           "a" "c" ["a"; "b"; "c"] eq_refl eq_refl chain_tree_edges abc_NoDup).
Defined.

Lemma chain_orders_agree k :
  map_get (run_updates [one_batch [chain_ab; chain_bc]]) k =
  map_get (run_updates [one_batch [chain_bc; chain_ab]]) k.
Proof.
  rewrite !two_updates_tree, !apply_transform_get.
  repeat case_decide; simplify_eq/=; done.
Qed.

Lemma resolution_ignores_arrival_order_witness :
  (∀ k, map_get (run_updates [one_batch [chain_ab; chain_bc]]) k =
        map_get (run_updates [one_batch [chain_bc; chain_ab]]) k) ∧
  findTransformPath (run_updates [one_batch [chain_ab; chain_bc]]) "a" "c" =
    findTransformPath (run_updates [one_batch [chain_bc; chain_ab]]) "a" "c" ∧
  computeTransform Three.ops (run_updates [one_batch [chain_ab; chain_bc]]) "a" "c" =
    computeTransform Three.ops (run_updates [one_batch [chain_bc; chain_ab]]) "a" "c".
Proof.
  split; [exact chain_orders_agree|].
  exact (resolution_ignores_arrival_order Three.ops _ _ "a" "c" chain_orders_agree).
Defined.

Lemma absent_target_unresolved_witness :
  "a" ≠ "z" ∧ ("z" ∉ map_keys chain_tree) ∧
  findTransformPath chain_tree "a" "z" = [] ∧
  computeTransform Three.ops chain_tree "a" "z" = None.
Proof.
  assert (Hne : "a" ≠ "z") by discriminate.
  assert (Hk : "z" ∉ map_keys chain_tree).
  { intros Hin. vm_compute in Hin. set_solver. }
  split; [exact Hne|]. split; [exact Hk|].
  exact (absent_target_unresolved Three.ops chain_tree "a" "z" Hne Hk).
Defined.

Lemma sensor_not_above_world :
  ¬ rtc (parent_edge (run_updates [one_batch [sensor_update]])) "sensor" "world".
Proof.
  intros [?|(y & _ & n & Hn & Hp)]%rtc_inv_r; [done|].
  vm_compute in Hn. by simplify_eq.
Qed.

Lemma updateSensorPosition_keeps_pose_witness :
  ("world" = "" ∨ "world" = "sensor" ∨
   ¬ rtc (parent_edge (run_updates [one_batch [sensor_update]])) "sensor" "world") ∧
  updateSensorPosition Three.ops (run_updates [one_batch [sensor_update]])
    (Some parked_group) "world" "sensor" = Some parked_group.
Proof.
  assert (Hc : "world" = "" ∨ "world" = "sensor" ∨
    ¬ rtc (parent_edge (run_updates [one_batch [sensor_update]])) "sensor" "world").
  { right. right. exact sensor_not_above_world. }
  split; [exact Hc|].
  exact (updateSensorPosition_keeps_pose Three.ops [one_batch [sensor_update]]
           (Some parked_group) "world" "sensor" Hc).
Defined.

Lemma sensor_below_world :
  rtc (parent_edge (run_updates [one_batch [sensor_update]])) "world" "sensor".
Proof. apply rtc_once. eexists. split; reflexivity. Qed.

Lemma updateSensorPosition_moves_group_witness :
  "sensor" ≠ "" ∧ "sensor" ≠ "world" ∧
  rtc (parent_edge (run_updates [one_batch [sensor_update]])) "world" "sensor" ∧
  ∃ t, computeTransform Three.ops (run_updates [one_batch [sensor_update]])
         "world" "sensor" = Some t ∧
       updateSensorPosition Three.ops (run_updates [one_batch [sensor_update]])
         (Some parked_group) "sensor" "world" = Some (pose_of t).
Proof.
  assert (H1 : "sensor" ≠ "") by discriminate.
  assert (H2 : "sensor" ≠ "world") by discriminate.
  split; [exact H1|]. split; [exact H2|]. split; [exact sensor_below_world|].
  exact (updateSensorPosition_moves_group Three.ops [one_batch [sensor_update]]
           parked_group "sensor" "world" H1 H2 sensor_below_world).
Defined.

(** The frame selector after the chain session, with "world" fixed and no
    sensor frame yet. *)
Example availableFrames_chain :
  availableFrames chain_tree "world" "" = ["a"; "b"; "c"; "world"].
Proof. vm_compute. reflexivity. Qed.
